(** * jive.conc.Promise: a single-fire, observable-backed promise

    Shallow embedding of [src/conc/promise.js].  The constructor's closure
    variables ([hasFired], [cancelled], [timeoutDuration], [timer]) and the
    listener registry of the mixed-in observable form one record; every
    method is a function on that record.  Listener callbacks are arbitrary
    client code: they are given as small scripts that may call back into the
    promise or throw, so that re-entrancy and exceptions are part of the
    model.  The host's [setTimeout]/[clearTimeout] are a list of pending
    timers which the host fires from the outside. *)

From stdpp Require Import gmap strings list fin_maps relations.
From Stdlib Require Import ZArith.

Open Scope string_scope.
Open Scope list_scope.
Open Scope nat_scope.

(** ** Values, listeners and the promise's methods as data *)

(** JavaScript values that reach the promise: event arguments, the delay
    given to [timeout], and [new Error(msg)]. *)
Inductive value :=
  | VUndefined
  | VNull
  | VBool (b : bool)
  | VNum (n : Z)
  | VStr (s : string)
  | VError (msg : string).

(** A method call on the promise (the seven methods [promise.js] defines), a
    statement of a listener's body, and a listener (a function value with an
    identity and a body).  [OTimeout v] is [timeout(v)]; a call without
    argument binds the parameter to [undefined], so it is
    [OTimeout VUndefined]. *)
Inductive op :=
  | OAddCallback (l : listener)
  | OAddErrback (l : listener)
  | OAddCancelback (l : listener)
  | OEmitSuccess (args : list value)
  | OEmitError (args : list value)
  | OCancel
  | OTimeout (v : value)
with stmt :=
  | SCall (o : op)
  | SThrow (v : value)
with listener :=
  | Listener (lid : nat) (lbody : list stmt).

Definition lid (l : listener) : nat := let 'Listener i _ := l in i.
Definition lbody (l : listener) : list stmt := let 'Listener _ b := l in b.

(** What an observer sees: an event handed to [emit], and a listener being
    invoked with the event's arguments. *)
Inductive obs :=
  | Emit (name : string) (args : list value)
  | Call (l : nat) (name : string) (args : list value).

(** The closure variable [timer]: [undefined] until the first
    [timeout(delay)], then a host handle or [null].  Host handles are
    positive integers, hence truthy. *)
Inductive slot :=
  | TUnset
  | TNull
  | THandle (h : positive).

(** What a method call evaluates to: [undefined], the receiver ([return
    this]), a value, or an exception that escapes the call. *)
Inductive result :=
  | RUndefined
  | RThis
  | RValue (v : value)
  | RThrow (v : value).

Record world := World {
  listeners : gmap string (list listener);
  hasFired : bool;
  cancelled : bool;
  timeoutDuration : value;
  timer : slot;
  pending : list (positive * value);
  next_handle : positive;
  trace : list obs
}.

(** [new jive.conc.Promise()] in a host without pending timers. *)
Definition init : world :=
  World ∅ false false VUndefined TUnset [] 1%positive [].

Definition set_listeners (m : gmap string (list listener)) (w : world) : world :=
  World m (hasFired w) (cancelled w) (timeoutDuration w) (timer w)
        (pending w) (next_handle w) (trace w).
Definition set_hasFired (b : bool) (w : world) : world :=
  World (listeners w) b (cancelled w) (timeoutDuration w) (timer w)
        (pending w) (next_handle w) (trace w).
Definition set_cancelled (b : bool) (w : world) : world :=
  World (listeners w) (hasFired w) b (timeoutDuration w) (timer w)
        (pending w) (next_handle w) (trace w).
Definition set_timeoutDuration (v : value) (w : world) : world :=
  World (listeners w) (hasFired w) (cancelled w) v (timer w)
        (pending w) (next_handle w) (trace w).
Definition set_timer (t : slot) (w : world) : world :=
  World (listeners w) (hasFired w) (cancelled w) (timeoutDuration w) t
        (pending w) (next_handle w) (trace w).
Definition set_pending (p : list (positive * value)) (w : world) : world :=
  World (listeners w) (hasFired w) (cancelled w) (timeoutDuration w) (timer w)
        p (next_handle w) (trace w).
Definition logs (es : list obs) (w : world) : world :=
  World (listeners w) (hasFired w) (cancelled w) (timeoutDuration w) (timer w)
        (pending w) (next_handle w) (trace w ++ es).
Definition log (e : obs) (w : world) : world := logs [e] w.

(** ** The host's timer facility *)

(** [setTimeout(callback, delay)]: a fresh handle, recorded with its delay.
    Every callback this promise schedules is the same closure, so the
    handle and the delay are all that is kept. *)
Definition setTimeout (delay : value) (w : world) : positive * world :=
  (next_handle w,
   World (listeners w) (hasFired w) (cancelled w) (timeoutDuration w) (timer w)
         (pending w ++ [(next_handle w, delay)]) (Pos.succ (next_handle w))
         (trace w)).

(** [clearTimeout(h)]. *)
Definition clearTimeout (h : positive) (w : world) : world :=
  set_pending (filter (λ p, p.1 ≠ h) (pending w)) w.

(** ** The observable *)

(** Modelled from the spec: [jive.conc.observable] is mixed into the promise
    but its source is not part of the repository snapshot.  Section 4.1:
    [addListener] appends to the end of the event's list, [removeListener]
    clears the whole list of the event, [emit] invokes every listener
    registered for the event when it is called, in registration order, each
    with the event's arguments, and a listener that throws does not keep the
    remaining ones from running; whether the exception is then passed on to
    the caller of [emit] is left open, which is the parameter [rethrow]. *)
Definition registered (name : string) (w : world) : list listener :=
  default [] (listeners w !! name).

Definition addListener (name : string) (l : listener) (w : world) : world :=
  set_listeners (<[name := registered name w ++ [l]]> (listeners w)) w.

Definition removeListener (name : string) (w : world) : world :=
  set_listeners (delete name (listeners w)) w.

(** What happens to a promise from the outside: a client calls a method,
    or the host fires a timer. *)
Inductive input :=
  | ICall (o : op)
  | IFire (h : positive).

Section Semantics.
Variable rethrow : bool.

Section Call.
(** How a method call made from inside a listener is carried out. *)
Variable reenter : op → world → option (world * result).

(** A listener's body: the calls in order, up to the first exception,
    its own or one escaping a call.  The result is the exception that
    ended the body, if any. *)
Fixpoint run_body (ss : list stmt) (w : world) : option (world * option value) :=
  match ss with
  | [] => Some (w, None)
  | SThrow v :: _ => Some (w, Some v)
  | SCall o :: ss' =>
      match reenter o w with
      | None => None
      | Some (w', RThrow v) => Some (w', Some v)
      | Some (w', _) => run_body ss' w'
      end
  end.

Definition invoke (name : string) (args : list value) (l : listener) (w : world)
  : option (world * option value) :=
  run_body (lbody l) (log (Call (lid l) name args) w).

(** The loop of [emit] over the listeners found at the call; [exn] is
    the first exception seen so far. *)
Fixpoint emit_each (name : string) (args : list value) (ls : list listener)
    (exn : option value) (w : world) : option (world * option value) :=
  match ls with
  | [] => Some (w, exn)
  | l :: ls' =>
      match invoke name args l w with
      | None => None
      | Some (w', e) =>
          emit_each name args ls' (match exn with Some _ => exn | None => e end) w'
      end
  end.

Definition emit (name : string) (args : list value) (w : world)
  : option (world * result) :=
  match emit_each name args (registered name w) None (log (Emit name args) w) with
  | None => None
  | Some (w', Some v) => Some (w', if rethrow then RThrow v else RUndefined)
  | Some (w', None) => Some (w', RUndefined)
  end.

(** *** The promise's methods, as in [promise.js] *)

Definition addCallback (l : listener) (w : world) : world * result :=
  (addListener "success" l w, RThis).

Definition addErrback (l : listener) (w : world) : world * result :=
  (addListener "error" l w, RThis).

Definition addCancelback (l : listener) (w : world) : world * result :=
  (addListener "cancel" l w, RThis).

Definition emitSuccess (args : list value) (w : world) : option (world * result) :=
  if hasFired w then Some (w, RUndefined)
  else emit "success" args (set_hasFired true w).

Definition emitError (args : list value) (w : world) : option (world * result) :=
  if hasFired w then Some (w, RUndefined)
  else emit "error" args (set_hasFired true w).

Definition emitCancel (w : world) : option (world * result) :=
  emit "cancel" [] w.

Definition cancel (w : world) : option (world * result) :=
  if cancelled w then Some (w, RUndefined)
  else emitCancel
         (removeListener "error" (removeListener "success" (set_cancelled true w))).

(** The part of [timeout(delay)] after the accessor branch: record the
    delay, clear a timer that is still set, schedule the new one. *)
Definition arm (delay : value) (w : world) : world :=
  let w1 := set_timeoutDuration delay w in
  let w2 := match timer w1 with
            | THandle h => set_timer TNull (clearTimeout h w1)
            | _ => w1
            end in
  let '(h, w3) := setTimeout (timeoutDuration w2) w2 in
  set_timer (THandle h) w3.

Definition timeout (v : value) (w : world) : world * result :=
  match v with
  | VUndefined => (w, RValue (timeoutDuration w))
  | _ => (arm v w, RThis)
  end.

Definition call (o : op) (w : world) : option (world * result) :=
  match o with
  | OAddCallback l => Some (addCallback l w)
  | OAddErrback l => Some (addErrback l w)
  | OAddCancelback l => Some (addCancelback l w)
  | OEmitSuccess args => emitSuccess args w
  | OEmitError args => emitError args w
  | OCancel => cancel w
  | OTimeout v => Some (timeout v w)
  end.
End Call.

(** Calls nest only through listeners; [fuel] bounds the nesting. *)
Fixpoint exec (fuel : nat) (o : op) (w : world) : option (world * result) :=
  match fuel with
  | O => None
  | S f => call (exec f) o w
  end.

(** An emission needs a flag that is still down and raises it first, so
    calls nest at most twice inside a call; [exec_total] below. *)
Definition depth : nat := 3.

(** The function given to [setTimeout] in [timeout], run by the host for
    a timer it has just taken from its pending list. *)
Definition timer_callback (w : world) : option (world * result) :=
  let w1 := set_timer TNull w in
  if negb (hasFired w1) && negb (cancelled w1)
  then exec depth (OEmitError [VError "timeout"]) w1
  else Some (w1, RUndefined).

(** The host fires the pending timer [h]: it takes the timer off its list
    and runs the callback.  A handle that is not pending (never scheduled,
    already fired or cleared) does not fire. *)
Definition fire (h : positive) (w : world) : option (world * result) :=
  if bool_decide (h ∈ (pending w).*1)
  then timer_callback (clearTimeout h w)
  else Some (w, RUndefined).

Definition step (i : input) (w : world) : option (world * result) :=
  match i with
  | ICall o => exec depth o w
  | IFire h => fire h w
  end.

(** A history; an exception that reaches the client or the host ends that
    call only. *)
Fixpoint run (ins : list input) (w : world) : option world :=
  match ins with
  | [] => Some w
  | i :: ins' =>
      match step i w with
      | None => None
      | Some (w', _) => run ins' w'
      end
  end.
End Semantics.


(** ** Vocabulary of the properties *)

(** The events of [name] in a trace, the [emit]s of [name], and how many
    there are. *)
Definition about (name : string) (e : obs) : bool :=
  match e with
  | Emit n _ | Call _ n _ => bool_decide (n = name)
  end.

Definition is_emit (name : string) (e : obs) : bool :=
  match e with
  | Emit n _ => bool_decide (n = name)
  | Call _ _ _ => false
  end.

Definition named (name : string) (t : list obs) : list obs :=
  filter (λ e, about name e) t.

Definition emits (name : string) (t : list obs) : nat :=
  length (filter (λ e, is_emit name e) t).

(** The invocations that deliver an event to the listeners [ls]. *)
Definition deliveries (name : string) (args : list value) (ls : list listener)
  : list obs :=
  map (λ l, Call (lid l) name args) ls.

(** A listener that calls nothing back: its body is empty or throws. *)
Definition passive (l : listener) : bool :=
  forallb (λ s, match s with SThrow _ => true | SCall _ => false end) (lbody l).

(** The flag that an emission of [name] raises before it starts. *)
Definition guard (name : string) (w : world) : bool :=
  if bool_decide (name = "cancel") then cancelled w else hasFired w.

(** How many of the two flags are still down. *)
Definition slack (w : world) : nat :=
  (if hasFired w then 0 else 1) + (if cancelled w then 0 else 1).

(** The host holds the timer named by [timer], scheduled with the recorded
    delay, and no other. *)
Definition timer_ok (w : world) : Prop :=
  pending w = match timer w with
              | THandle h => [(h, timeoutDuration w)]
              | _ => []
              end.

(** Emissions of the two resolving events, and what is left of each flag's
    single use. *)
Definition terminal_emits (t : list obs) : nat :=
  emits "success" t + emits "error" t.

Definition unfired (w : world) : nat := if hasFired w then 0 else 1.

Definition uncancelled (w : world) : nat := if cancelled w then 0 else 1.

(** All listeners registered for [name] are passive. *)
Definition passive_for (name : string) (w : world) : bool :=
  forallb passive (registered name w).

(** The delay on record after an input, given the one before it, and after
    a history: only [timeout(delay)] with a delay changes it. *)
Definition delay_after (v : value) (i : input) : value :=
  match i with
  | ICall (OTimeout VUndefined) => v
  | ICall (OTimeout d) => d
  | _ => v
  end.

Definition last_delay (ins : list input) : value :=
  foldl delay_after VUndefined ins.

(** An input that brings no listener that calls back. *)
Definition plain (i : input) : bool :=
  match i with
  | ICall (OAddCallback l) | ICall (OAddErrback l) | ICall (OAddCancelback l) =>
      passive l
  | _ => true
  end.

(** No registered listener calls back. *)
Definition all_passive (w : world) : Prop :=
  ∀ name, passive_for name w = true.

(** A promise with one error listener after [timeout(100)] and then
    [timeout(50)]. *)
Definition armed_twice : world :=
  arm (VNum 50) (arm (VNum 100) (addListener "error" (Listener 1 []) init)).

(** All emissions in a trace, whatever the event. *)
Definition any_emit (e : obs) : bool :=
  match e with
  | Emit _ _ => true
  | Call _ _ _ => false
  end.

Definition all_emits (t : list obs) : nat :=
  length (filter (λ e, any_emit e) t).

(** Between two worlds the events of [name] either stay as they are, or the
    flag of [name] goes up and one emission of [name] is added: the event,
    then one call for each listener of some list, in order, with the
    event's arguments ([cancel] has none). *)
Definition once (name : string) (w w' : world) : Prop :=
  named name (trace w') = named name (trace w)
  ∨ (guard name w = false ∧ guard name w' = true
     ∧ ∃ args ls,
         named name (trace w')
         = named name (trace w) ++ Emit name args :: deliveries name args ls
         ∧ (name = "cancel" → args = [])).

(** The state changes a call is made of. *)
Inductive prim : world → world → Prop :=
  | prim_invoke i name args w :
      prim w (log (Call i name args) w)
  | prim_add name l w :
      prim w (addListener name l w)
  | prim_success args w :
      hasFired w = false →
      prim w (log (Emit "success" args) (set_hasFired true w))
  | prim_error args w :
      hasFired w = false →
      prim w (log (Emit "error" args) (set_hasFired true w))
  | prim_cancel w :
      cancelled w = false →
      prim w (log (Emit "cancel" [])
                (removeListener "error"
                   (removeListener "success" (set_cancelled true w))))
  | prim_arm v w :
      v ≠ VUndefined →
      prim w (arm v w)
  | prim_fire h w :
      h ∈ (pending w).*1 →
      prim w (set_timer TNull (clearTimeout h w)).

(** ** Calls as sequences of state changes *)

Section Steps.
Context (rethrow : bool) (reenter : op → world → option (world * result)).
Hypothesis reenter_steps :
  ∀ o w w' r, reenter o w = Some (w', r) → rtc prim w w'.

Lemma run_body_steps ss w w' e :
  run_body reenter ss w = Some (w', e) → rtc prim w w'.
Proof.
  revert w. induction ss as [|[o|v] ss IH]; simpl; intros w H.
  - by simplify_eq.
  - destruct (reenter o w) as [[w1 r]|] eqn:E; [|done].
    apply reenter_steps in E.
    destruct r; simplify_eq; try done; etrans; eauto.
  - by simplify_eq.
Qed.

Lemma invoke_steps name args l w w' e :
  invoke reenter name args l w = Some (w', e) → rtc prim w w'.
Proof.
  unfold invoke. intros H%run_body_steps.
  eapply rtc_l; [apply prim_invoke | done].
Qed.

Lemma emit_each_steps name args ls exn w w' e :
  emit_each reenter name args ls exn w = Some (w', e) → rtc prim w w'.
Proof.
  revert exn w. induction ls as [|l ls IH]; simpl; intros exn w H.
  - by simplify_eq.
  - destruct (invoke reenter name args l w) as [[w1 e1]|] eqn:E; [|done].
    apply invoke_steps in E. etrans; eauto.
Qed.

Lemma emit_steps name args w w' r :
  emit rethrow reenter name args w = Some (w', r) →
  rtc prim (log (Emit name args) w) w'.
Proof.
  unfold emit. intros H.
  destruct (emit_each _ _ _ _ _ _) as [[w1 [v|]]|] eqn:E; simplify_eq;
    by eapply emit_each_steps.
Qed.

Lemma call_steps o w w' r :
  call rethrow reenter o w = Some (w', r) → rtc prim w w'.
Proof.
  destruct o as [l|l|l|args|args| |v]; simpl; intros H.
  - unfold addCallback in H. simplify_eq. apply rtc_once, prim_add.
  - unfold addErrback in H. simplify_eq. apply rtc_once, prim_add.
  - unfold addCancelback in H. simplify_eq. apply rtc_once, prim_add.
  - unfold emitSuccess in H. destruct (hasFired w) eqn:F.
    + by simplify_eq.
    + apply emit_steps in H. eapply rtc_l; [by apply (prim_success args)|done].
  - unfold emitError in H. destruct (hasFired w) eqn:F.
    + by simplify_eq.
    + apply emit_steps in H. eapply rtc_l; [by apply (prim_error args)|done].
  - unfold cancel, emitCancel in H. destruct (cancelled w) eqn:F.
    + by simplify_eq.
    + apply emit_steps in H. eapply rtc_l; [by apply prim_cancel|done].
  - unfold timeout in H.
    destruct v; simplify_eq; try done; by apply rtc_once, prim_arm.
Qed.
End Steps.

Lemma exec_S rethrow f o w :
  exec rethrow (S f) o w = call rethrow (exec rethrow f) o w.
Proof. reflexivity. Qed.

#[global] Arguments exec : simpl never.

Lemma exec_steps rethrow fuel o w w' r :
  exec rethrow fuel o w = Some (w', r) → rtc prim w w'.
Proof.
  revert o w w' r. induction fuel as [|f IH]; intros o w w' r H; [done|].
  rewrite exec_S in H. by eapply call_steps.
Qed.

Lemma fire_steps rethrow h w w' r :
  fire rethrow h w = Some (w', r) → rtc prim w w'.
Proof.
  unfold fire, timer_callback. case_bool_decide as Hh; [|by intros; simplify_eq].
  intros H. eapply rtc_l; [by apply (prim_fire h)|].
  destruct (_ && _); [by eapply exec_steps | by simplify_eq].
Qed.

Lemma step_steps rethrow i w w' r :
  step rethrow i w = Some (w', r) → rtc prim w w'.
Proof. destruct i; simpl; [apply exec_steps | apply fire_steps]. Qed.

Lemma run_steps rethrow ins w w' :
  run rethrow ins w = Some w' → rtc prim w w'.
Proof.
  revert w. induction ins as [|i ins IH]; simpl; intros w H; [by simplify_eq|].
  destruct (step rethrow i w) as [[w1 r]|] eqn:E; [|done].
  apply step_steps in E. etrans; eauto.
Qed.

(** ** What every state change preserves *)

Lemma rtc_prim_preserves (I : world → Prop) :
  (∀ w w', prim w w' → I w → I w') →
  ∀ w w', rtc prim w w' → I w → I w'.
Proof. intros HI w w' H. induction H; eauto. Qed.

Lemma emits_app name t1 t2 :
  emits name (t1 ++ t2) = emits name t1 + emits name t2.
Proof. unfold emits. by rewrite filter_app, length_app. Qed.

Lemma emits_call name i n args : emits name [Call i n args] = 0.
Proof. reflexivity. Qed.

Lemma emits_emit name n args :
  emits name [Emit n args] = if bool_decide (n = name) then 1 else 0.
Proof.
  unfold emits. rewrite filter_cons. simpl.
  by destruct (bool_decide (n = name)).
Qed.

(** The fields of a world after [timeout(delay)] has armed a timer. *)
Lemma arm_hasFired v w : hasFired (arm v w) = hasFired w.
Proof. unfold arm; simpl; by destruct (timer w). Qed.

Lemma arm_cancelled v w : cancelled (arm v w) = cancelled w.
Proof. unfold arm; simpl; by destruct (timer w). Qed.

Lemma arm_listeners v w : listeners (arm v w) = listeners w.
Proof. unfold arm; simpl; by destruct (timer w). Qed.

Lemma arm_trace v w : trace (arm v w) = trace w.
Proof. unfold arm; simpl; by destruct (timer w). Qed.

Lemma arm_timeoutDuration v w : timeoutDuration (arm v w) = v.
Proof. unfold arm; simpl; by destruct (timer w). Qed.

Lemma arm_timer v w : timer (arm v w) = THandle (next_handle w).
Proof. unfold arm; simpl; by destruct (timer w). Qed.

Lemma arm_next_handle v w : next_handle (arm v w) = Pos.succ (next_handle w).
Proof. unfold arm; simpl; by destruct (timer w). Qed.

Lemma arm_pending v w :
  pending (arm v w)
  = match timer w with
    | THandle h => filter (λ p, p.1 ≠ h) (pending w)
    | _ => pending w
    end ++ [(next_handle w, v)].
Proof. unfold arm; simpl; by destruct (timer w). Qed.

Create Rewrite HintDb world.

#[global] Hint Rewrite arm_hasFired arm_cancelled arm_listeners arm_trace
  arm_timeoutDuration arm_timer arm_next_handle arm_pending : world.

#[global] Arguments arm : simpl never.

Lemma prim_slack w w' : prim w w' → slack w' ≤ slack w.
Proof.
  destruct 1 as [| | ? ? F | ? ? F | ? F | |]; unfold slack; autorewrite with world; simpl;
    rewrite ?F; try lia; repeat case_match; simpl; lia.
Qed.

Lemma prim_hasFired w w' : prim w w' → hasFired w = true → hasFired w' = true.
Proof. destruct 1; autorewrite with world; simpl; done. Qed.

Lemma prim_cancelled w w' : prim w w' → cancelled w = true → cancelled w' = true.
Proof. destruct 1; autorewrite with world; simpl; done. Qed.

Lemma steps_slack w w' : rtc prim w w' → slack w' ≤ slack w.
Proof. induction 1 as [|? ? ? H%prim_slack]; lia. Qed.

Lemma steps_hasFired w w' : rtc prim w w' → hasFired w = true → hasFired w' = true.
Proof. apply (rtc_prim_preserves (λ w, hasFired w = true)), prim_hasFired. Qed.

Lemma steps_cancelled w w' : rtc prim w w' → cancelled w = true → cancelled w' = true.
Proof. apply (rtc_prim_preserves (λ w, cancelled w = true)), prim_cancelled. Qed.

Lemma prim_terminal w w' :
  prim w w' →
  terminal_emits (trace w') + unfired w' = terminal_emits (trace w) + unfired w.
Proof.
  unfold terminal_emits, unfired.
  destruct 1 as [| | ? ? F | ? ? F | ? F | |]; autorewrite with world; simpl;
    rewrite ?emits_app, ?emits_call, ?emits_emit, ?F; simpl; lia.
Qed.

Lemma prim_cancel_emits w w' :
  prim w w' →
  emits "cancel" (trace w') + uncancelled w'
  = emits "cancel" (trace w) + uncancelled w.
Proof.
  unfold uncancelled.
  destruct 1 as [| | ? ? F | ? ? F | ? F | |]; autorewrite with world; simpl;
    rewrite ?emits_app, ?emits_call, ?emits_emit, ?F; simpl; lia.
Qed.

Lemma steps_terminal w w' :
  rtc prim w w' →
  terminal_emits (trace w') + unfired w' = terminal_emits (trace w) + unfired w.
Proof. induction 1 as [|? ? ? H%prim_terminal]; lia. Qed.

Lemma steps_cancel_emits w w' :
  rtc prim w w' →
  emits "cancel" (trace w') + uncancelled w'
  = emits "cancel" (trace w) + uncancelled w.
Proof. induction 1 as [|? ? ? H%prim_cancel_emits]; lia. Qed.

Lemma prim_trace w w' : prim w w' → trace w `prefix_of` trace w'.
Proof.
  destruct 1; autorewrite with world; simpl;
    try done; by apply prefix_app_r.
Qed.

Lemma steps_trace w w' : rtc prim w w' → trace w `prefix_of` trace w'.
Proof. induction 1 as [|? ? ? H%prim_trace]; [done|by etrans]. Qed.

Lemma prim_timer_ok w w' : prim w w' → timer_ok w → timer_ok w'.
Proof.
  unfold timer_ok.
  destruct 1 as [| | | | | v w _ | h w Hh]; autorewrite with world; simpl; try done.
  - intros H. destruct (timer w) as [| |h]; rewrite H; simpl; try done.
    rewrite filter_cons. simpl. by rewrite decide_False by (intros ?; done).
  - intros H. destruct (timer w) as [| |h']; rewrite H in Hh |- *; simpl in *.
    + by apply elem_of_nil in Hh.
    + by apply elem_of_nil in Hh.
    + apply list_elem_of_singleton in Hh as ->.
      rewrite filter_cons. simpl. by rewrite decide_False by (intros ?; done).
Qed.

Lemma steps_timer_ok w w' : rtc prim w w' → timer_ok w → timer_ok w'.
Proof. apply (rtc_prim_preserves timer_ok). intros ? ?. apply prim_timer_ok. Qed.

(** ** Every call returns *)

Section Total.
Context (rethrow : bool) (reenter : op → world → option (world * result)).
Context (n : nat).
Hypothesis reenter_steps :
  ∀ o w w' r, reenter o w = Some (w', r) → rtc prim w w'.
Hypothesis reenter_total : ∀ o w, slack w < n → is_Some (reenter o w).

Lemma run_body_total ss w : slack w < n → is_Some (run_body reenter ss w).
Proof.
  revert w. induction ss as [|[o|v] ss IH]; simpl; intros w Hw; [done| |done].
  destruct (reenter_total o w Hw) as [[w1 r] E]. rewrite E.
  apply reenter_steps, steps_slack in E.
  destruct r; try done; apply IH; lia.
Qed.

Lemma emit_each_total name args ls exn w :
  slack w < n → is_Some (emit_each reenter name args ls exn w).
Proof.
  revert exn w. induction ls as [|l ls IH]; simpl; intros exn w Hw; [done|].
  destruct (run_body_total (lbody l) (log (Call (lid l) name args) w) Hw)
    as [[w1 e] E].
  unfold invoke. rewrite E.
  apply run_body_steps, steps_slack in E; [|done].
  apply IH. unfold slack in *. simpl in *. lia.
Qed.

Lemma emit_total name args w :
  slack w < n → is_Some (emit rethrow reenter name args w).
Proof.
  intros Hw. unfold emit.
  destruct (emit_each_total name args (registered name w) None
              (log (Emit name args) w) Hw) as [[w1 e] ->].
  by destruct e.
Qed.

Lemma call_total o w : slack w < S n → is_Some (call rethrow reenter o w).
Proof.
  intros Hw. destruct o as [l|l|l|args|args| |v]; simpl; try done.
  - unfold emitSuccess. destruct (hasFired w) eqn:F; [done|].
    apply emit_total. unfold slack in *. rewrite F in Hw. simpl in *. lia.
  - unfold emitError. destruct (hasFired w) eqn:F; [done|].
    apply emit_total. unfold slack in *. rewrite F in Hw. simpl in *. lia.
  - unfold cancel, emitCancel. destruct (cancelled w) eqn:F; [done|].
    apply emit_total. unfold slack in *. rewrite F in Hw. simpl in *. lia.
Qed.
End Total.

Lemma exec_total rethrow fuel o w :
  slack w < fuel → is_Some (exec rethrow fuel o w).
Proof.
  revert o w. induction fuel as [|f IH]; intros o w Hw; [lia|].
  rewrite exec_S. apply call_total with (n := f); [|done|done].
  intros ? ? ? ?. apply exec_steps.
Qed.

Lemma slack_depth w : slack w < depth.
Proof. unfold slack, depth. repeat case_match; lia. Qed.

Lemma step_total rethrow i w : is_Some (step rethrow i w).
Proof.
  destruct i as [o|h]; simpl.
  - apply exec_total, slack_depth.
  - unfold fire, timer_callback. case_bool_decide; [|done].
    destruct (_ && _); [|done]. apply exec_total, slack_depth.
Qed.

Lemma run_total rethrow ins w : is_Some (run rethrow ins w).
Proof.
  revert w. induction ins as [|i ins IH]; simpl; intros w; [done|].
  destruct (step_total rethrow i w) as [[w1 r] ->]. apply IH.
Qed.

(** More fuel never changes a result: the bound [depth] is not felt. *)
Section Mono.
Context (rethrow : bool) (reenter reenter' : op → world → option (world * result)).
Hypothesis reenter_le : ∀ o w x, reenter o w = Some x → reenter' o w = Some x.

Lemma run_body_mono ss w x :
  run_body reenter ss w = Some x → run_body reenter' ss w = Some x.
Proof.
  revert w. induction ss as [|[o|v] ss IH]; simpl; intros w H; [done| |done].
  destruct (reenter o w) as [[w1 r]|] eqn:E; [|done].
  rewrite (reenter_le _ _ _ E). destruct r; auto.
Qed.

Lemma emit_each_mono name args ls exn w x :
  emit_each reenter name args ls exn w = Some x →
  emit_each reenter' name args ls exn w = Some x.
Proof.
  revert exn w. induction ls as [|l ls IH]; simpl; intros exn w H; [done|].
  unfold invoke in *.
  destruct (run_body reenter _ _) as [[w1 e]|] eqn:E; [|done].
  rewrite (run_body_mono _ _ _ E). auto.
Qed.

Lemma emit_mono name args w x :
  emit rethrow reenter name args w = Some x →
  emit rethrow reenter' name args w = Some x.
Proof.
  unfold emit. intros H.
  destruct (emit_each reenter _ _ _ _ _) as [[w1 e]|] eqn:E; [|done].
  by rewrite (emit_each_mono _ _ _ _ _ _ E).
Qed.

Lemma call_mono o w x :
  call rethrow reenter o w = Some x → call rethrow reenter' o w = Some x.
Proof.
  destruct o; simpl; try done;
    unfold emitSuccess, emitError, cancel, emitCancel;
    case_match; try done; apply emit_mono.
Qed.
End Mono.

Lemma exec_mono rethrow f f' o w x :
  f ≤ f' → exec rethrow f o w = Some x → exec rethrow f' o w = Some x.
Proof.
  revert f' o w x. induction f as [|f IH]; intros f' o w x Hf H; [done|].
  destruct f' as [|f']; [lia|]. rewrite exec_S in *.
  eapply call_mono; [|done]. intros ? ? ?. apply IH. lia.
Qed.

Lemma exec_depth rethrow fuel o w :
  depth ≤ fuel → exec rethrow fuel o w = exec rethrow depth o w.
Proof.
  intros Hf. destruct (exec_total rethrow depth o w (slack_depth w)) as [x E].
  rewrite E. by eapply exec_mono.
Qed.

(** ** Once its flag is up, an event is over *)

Lemma named_app name t1 t2 :
  named name (t1 ++ t2) = named name t1 ++ named name t2.
Proof. unfold named. by rewrite filter_app. Qed.

Lemma named_one name e :
  named name [e] = if about name e then [e] else [].
Proof.
  unfold named. rewrite filter_cons, filter_nil.
  by destruct (about name e).
Qed.

Lemma steps_guard name w w' :
  rtc prim w w' → guard name w = true → guard name w' = true.
Proof.
  unfold guard. case_bool_decide; [apply steps_cancelled | apply steps_hasFired].
Qed.

Section Quiet.
Context (rethrow : bool) (reenter : op → world → option (world * result)).
Context (name : string).
Hypothesis reenter_steps :
  ∀ o w w' r, reenter o w = Some (w', r) → rtc prim w w'.
Hypothesis reenter_quiet :
  ∀ o w w' r, reenter o w = Some (w', r) → guard name w = true →
    named name (trace w') = named name (trace w).

Lemma run_body_quiet ss w w' e :
  run_body reenter ss w = Some (w', e) → guard name w = true →
  named name (trace w') = named name (trace w).
Proof.
  revert w. induction ss as [|[o|v] ss IH]; simpl; intros w H G.
  - by simplify_eq.
  - destruct (reenter o w) as [[w1 r]|] eqn:E; [|done].
    pose proof (reenter_quiet _ _ _ _ E G) as Q.
    apply reenter_steps in E. apply (steps_guard name) in E; [|done].
    destruct r; simplify_eq; try done; rewrite <- Q; by apply IH.
  - by simplify_eq.
Qed.

Lemma emit_each_quiet name' args ls exn w w' e :
  name' ≠ name →
  emit_each reenter name' args ls exn w = Some (w', e) → guard name w = true →
  named name (trace w') = named name (trace w).
Proof.
  intros Hne. revert exn w. induction ls as [|l ls IH]; simpl; intros exn w H G.
  - by simplify_eq.
  - unfold invoke in H.
    destruct (run_body reenter _ _) as [[w1 e1]|] eqn:E; [|done].
    pose proof (run_body_quiet _ _ _ _ E G) as Q.
    apply run_body_steps in E; [|done]. apply (steps_guard name) in E; [|done].
    rewrite (IH _ _ H E), Q. simpl.
    rewrite named_app, named_one. simpl.
    rewrite bool_decide_eq_false_2 by done. by rewrite app_nil_r.
Qed.

Lemma emit_quiet name' args w w' r :
  name' ≠ name →
  emit rethrow reenter name' args w = Some (w', r) → guard name w = true →
  named name (trace w') = named name (trace w).
Proof.
  intros Hne. unfold emit. intros H G.
  destruct (emit_each _ _ _ _ _ _) as [[w1 e]|] eqn:E; [|done].
  apply emit_each_quiet in E; [|done|done].
  simpl in E. rewrite named_app, named_one in E. simpl in E.
  rewrite bool_decide_eq_false_2, app_nil_r in E by done.
  destruct e; by simplify_eq.
Qed.

Lemma call_quiet o w w' r :
  call rethrow reenter o w = Some (w', r) → guard name w = true →
  named name (trace w') = named name (trace w).
Proof.
  destruct o as [l|l|l|args|args| |v]; simpl; intros H G.
  - unfold addCallback in H. by simplify_eq.
  - unfold addErrback in H. by simplify_eq.
  - unfold addCancelback in H. by simplify_eq.
  - unfold emitSuccess in H. destruct (hasFired w) eqn:F; [by simplify_eq|].
    unfold guard in G. case_bool_decide as Hn; [|congruence].
    apply emit_quiet in H; [done|by rewrite Hn|].
    unfold guard. by rewrite bool_decide_eq_true_2.
  - unfold emitError in H. destruct (hasFired w) eqn:F; [by simplify_eq|].
    unfold guard in G. case_bool_decide as Hn; [|congruence].
    apply emit_quiet in H; [done|by rewrite Hn|].
    unfold guard. by rewrite bool_decide_eq_true_2.
  - unfold cancel, emitCancel in H.
    destruct (cancelled w) eqn:F; [by simplify_eq|].
    unfold guard in G. case_bool_decide as Hn; [congruence|].
    apply emit_quiet in H; [done|done|].
    unfold guard. by rewrite bool_decide_eq_false_2.
  - unfold timeout in H. destruct v; simplify_eq; autorewrite with world; done.
Qed.

(** An emission of [name] reaches every listener found at its start, in
    order, whatever the listeners do. *)
Lemma emit_each_delivers args ls exn w w' e :
  emit_each reenter name args ls exn w = Some (w', e) → guard name w = true →
  named name (trace w') = named name (trace w) ++ deliveries name args ls.
Proof.
  revert exn w. induction ls as [|l ls IH]; simpl; intros exn w H G.
  - simplify_eq. by rewrite app_nil_r.
  - unfold invoke in H.
    destruct (run_body reenter _ _) as [[w1 e1]|] eqn:E; [|done].
    pose proof (run_body_quiet _ _ _ _ E G) as Q.
    apply run_body_steps in E; [|done]. apply (steps_guard name) in E; [|done].
    rewrite (IH _ _ H E), Q. simpl.
    rewrite named_app, named_one. simpl.
    rewrite bool_decide_eq_true_2 by done. by rewrite <- app_assoc.
Qed.

Lemma emit_delivers args w w' r :
  emit rethrow reenter name args w = Some (w', r) → guard name w = true →
  named name (trace w')
  = named name (trace w) ++ Emit name args :: deliveries name args (registered name w).
Proof.
  unfold emit. intros H G.
  destruct (emit_each _ _ _ _ _ _) as [[w1 e]|] eqn:E; [|done].
  apply emit_each_delivers in E; [|done].
  simpl in E. rewrite named_app, named_one in E. simpl in E.
  rewrite bool_decide_eq_true_2, <- app_assoc in E by done.
  destruct e; by simplify_eq.
Qed.
End Quiet.

Lemma exec_quiet rethrow name fuel o w w' r :
  exec rethrow fuel o w = Some (w', r) → guard name w = true →
  named name (trace w') = named name (trace w).
Proof.
  revert o w w' r. induction fuel as [|f IH]; intros o w w' r H G; [done|].
  rewrite exec_S in H. eapply call_quiet; [| |done..]; [|done].
  intros ? ? ? ?. apply exec_steps.
Qed.

(** ** One emission, seen from the client *)

Lemma step_call rethrow o w :
  step rethrow (ICall o) w = call rethrow (exec rethrow 2) o w.
Proof. reflexivity. Qed.

Lemma terminal_emits_app t1 t2 :
  terminal_emits (t1 ++ t2) = terminal_emits t1 + terminal_emits t2.
Proof. unfold terminal_emits. rewrite !emits_app. lia. Qed.

Lemma guard_hasFired name w :
  name ≠ "cancel" → guard name w = hasFired w.
Proof. intros H. unfold guard. by rewrite bool_decide_eq_false_2. Qed.

(** An emission of [success] or [error], which starts with [hasFired] up:
    the event, then its listeners in order, and among whatever else the
    listeners cause no further [success] or [error]. *)
Lemma emit_resolves rethrow f name args w w' r :
  name ≠ "cancel" → hasFired w = true →
  emit rethrow (exec rethrow f) name args w = Some (w', r) →
  hasFired w' = true
  ∧ ∃ rest, trace w' = trace w ++ Emit name args :: rest
      ∧ terminal_emits rest = 0
      ∧ named name rest = deliveries name args (registered name w).
Proof.
  intros Hn F H.
  pose proof (emit_steps _ _ (exec_steps rethrow f) _ _ _ _ _ H) as Hs.
  pose proof (steps_hasFired _ _ Hs F) as F'. split; [done|].
  destruct (steps_trace _ _ Hs) as [rest Ht]. simpl in Ht.
  rewrite <- app_assoc in Ht. simpl in Ht. exists rest. split; [done|].
  split.
  - apply steps_terminal in Hs. unfold unfired in Hs. simpl in Hs.
    rewrite F, F', Ht in Hs.
    replace (trace w ++ Emit name args :: rest)
      with ((trace w ++ [Emit name args]) ++ rest) in Hs
      by (by rewrite <- app_assoc).
    rewrite terminal_emits_app in Hs. lia.
  - eapply emit_delivers in H;
      [|apply exec_steps|intros ? ? ? ?; apply exec_quiet
       |by rewrite guard_hasFired].
    rewrite Ht, named_app in H. apply app_inv_head in H.
    change (Emit name args :: rest) with ([Emit name args] ++ rest) in H.
    rewrite named_app, named_one in H. simpl in H.
    case_bool_decide; [|done]. simpl in H. by injection H.
Qed.

(** The same for [cancel], which starts with [cancelled] up. *)
Lemma emit_cancels rethrow f w w' r :
  cancelled w = true →
  emit rethrow (exec rethrow f) "cancel" [] w = Some (w', r) →
  cancelled w' = true
  ∧ ∃ rest, trace w' = trace w ++ Emit "cancel" [] :: rest
      ∧ emits "cancel" rest = 0
      ∧ named "cancel" rest = deliveries "cancel" [] (registered "cancel" w).
Proof.
  intros F H.
  pose proof (emit_steps _ _ (exec_steps rethrow f) _ _ _ _ _ H) as Hs.
  pose proof (steps_cancelled _ _ Hs F) as F'. split; [done|].
  destruct (steps_trace _ _ Hs) as [rest Ht]. simpl in Ht.
  exists rest. split; [by rewrite Ht, <- app_assoc|]. split.
  - apply steps_cancel_emits in Hs. unfold uncancelled in Hs. simpl in Hs.
    rewrite F, F', Ht, emits_app in Hs. lia.
  - eapply emit_delivers in H;
      [|apply exec_steps|intros ? ? ? ?; apply exec_quiet|done].
    rewrite Ht, <- app_assoc, named_app in H. apply app_inv_head in H.
    rewrite named_app, named_one in H. simpl in H. by injection H.
Qed.

Lemma emitSuccess_fired rethrow args w :
  hasFired w = true →
  step rethrow (ICall (OEmitSuccess args)) w = Some (w, RUndefined).
Proof. intros F. rewrite step_call. simpl. unfold emitSuccess. by rewrite F. Qed.

Lemma emitError_fired rethrow args w :
  hasFired w = true →
  step rethrow (ICall (OEmitError args)) w = Some (w, RUndefined).
Proof. intros F. rewrite step_call. simpl. unfold emitError. by rewrite F. Qed.

Lemma emitSuccess_unfired rethrow args w :
  hasFired w = false →
  ∃ w' r rest,
    step rethrow (ICall (OEmitSuccess args)) w = Some (w', r)
    ∧ hasFired w' = true
    ∧ trace w' = trace w ++ Emit "success" args :: rest
    ∧ terminal_emits rest = 0
    ∧ named "success" rest = deliveries "success" args (registered "success" w).
Proof.
  intros F. destruct (step_total rethrow (ICall (OEmitSuccess args)) w) as [[w' r] E].
  exists w', r. rewrite E. rewrite step_call in E. simpl in E.
  unfold emitSuccess in E. rewrite F in E.
  apply emit_resolves in E as (F' & rest & ?); [|done..]. by exists rest.
Qed.

Lemma emitError_unfired rethrow args w :
  hasFired w = false →
  ∃ w' r rest,
    step rethrow (ICall (OEmitError args)) w = Some (w', r)
    ∧ hasFired w' = true
    ∧ trace w' = trace w ++ Emit "error" args :: rest
    ∧ terminal_emits rest = 0
    ∧ named "error" rest = deliveries "error" args (registered "error" w).
Proof.
  intros F. destruct (step_total rethrow (ICall (OEmitError args)) w) as [[w' r] E].
  exists w', r. rewrite E. rewrite step_call in E. simpl in E.
  unfold emitError in E. rewrite F in E.
  apply emit_resolves in E as (F' & rest & ?); [|done..]. by exists rest.
Qed.

(** ** Timers *)

Lemma timeout_arms rethrow d w :
  d ≠ VUndefined →
  step rethrow (ICall (OTimeout d)) w = Some (arm d w, RThis).
Proof. intros Hd. rewrite step_call. simpl. unfold timeout. by destruct d. Qed.

Lemma timeout_reads rethrow w :
  step rethrow (ICall (OTimeout VUndefined)) w
  = Some (w, RValue (timeoutDuration w)).
Proof. reflexivity. Qed.

Lemma timer_ok_init : timer_ok init.
Proof. reflexivity. Qed.

Lemma run_timer_ok rethrow ins w :
  run rethrow ins init = Some w → timer_ok w.
Proof. intros H%run_steps. by apply (steps_timer_ok init), timer_ok_init. Qed.

Lemma arm_pending_ok d w :
  timer_ok w → pending (arm d w) = [(next_handle w, d)].
Proof.
  unfold timer_ok. intros H. rewrite arm_pending.
  destruct (timer w); rewrite H; try done.
  rewrite filter_cons. simpl. by rewrite decide_False by (intros ?; done).
Qed.

Lemma fire_not_pending rethrow h w :
  h ∉ (pending w).*1 → fire rethrow h w = Some (w, RUndefined).
Proof. intros Hh. unfold fire. by rewrite bool_decide_eq_false_2. Qed.

Lemma fire_live rethrow h w :
  h ∈ (pending w).*1 → hasFired w = false → cancelled w = false →
  fire rethrow h w
  = step rethrow (ICall (OEmitError [VError "timeout"]))
      (set_timer TNull (clearTimeout h w)).
Proof.
  intros Hh F C. unfold fire, timer_callback.
  rewrite bool_decide_eq_true_2 by done. simpl. by rewrite F, C.
Qed.

Lemma fire_late rethrow h w :
  h ∈ (pending w).*1 → hasFired w = true ∨ cancelled w = true →
  fire rethrow h w = Some (set_timer TNull (clearTimeout h w), RUndefined).
Proof.
  intros Hh FC. unfold fire, timer_callback.
  rewrite bool_decide_eq_true_2 by done. simpl.
  destruct FC as [-> | ->]; [done|]. by rewrite andb_false_r.
Qed.

Lemma run_cons rethrow i ins w w1 r :
  step rethrow i w = Some (w1, r) →
  run rethrow (i :: ins) w = run rethrow ins w1.
Proof. simpl. by intros ->. Qed.

Lemma run_fires_idle rethrow hs w :
  pending w = [] → run rethrow (IFire <$> hs) w = Some w.
Proof.
  intros Hp. induction hs as [|h hs IH]; simpl; [done|].
  rewrite fire_not_pending; [done|]. rewrite Hp. apply not_elem_of_nil.
Qed.

(** ** Passive listeners *)

Lemma logs_nil w : logs [] w = w.
Proof. destruct w. unfold logs. simpl. by rewrite app_nil_r. Qed.

Lemma logs_logs es1 es2 w : logs es2 (logs es1 w) = logs (es1 ++ es2) w.
Proof. unfold logs. simpl. by rewrite app_assoc. Qed.

Lemma run_body_passive reenter l w :
  passive l = true → ∃ e, run_body reenter (lbody l) w = Some (w, e).
Proof.
  unfold passive. destruct (lbody l) as [|[o|v] ss]; simpl; by eauto.
Qed.

Lemma emit_each_passive reenter name args ls exn w :
  forallb passive ls = true →
  ∃ e, emit_each reenter name args ls exn w
       = Some (logs (deliveries name args ls) w, e).
Proof.
  revert exn w. induction ls as [|l ls IH]; simpl; intros exn w H.
  - rewrite logs_nil. eauto.
  - apply andb_prop in H as [Hl Hls]. unfold invoke.
    destruct (run_body_passive reenter l (log (Call (lid l) name args) w) Hl)
      as [e ->].
    destruct (IH (match exn with Some _ => exn | None => e end)
                 (log (Call (lid l) name args) w) Hls) as [e' ->].
    unfold log. rewrite logs_logs. eauto.
Qed.

Lemma emit_passive rethrow reenter name args w :
  passive_for name w = true →
  ∃ r, emit rethrow reenter name args w
       = Some (logs (Emit name args :: deliveries name args (registered name w)) w, r).
Proof.
  unfold passive_for, emit. intros H.
  destruct (emit_each_passive reenter name args (registered name w) None
              (log (Emit name args) w) H) as [e ->].
  unfold log. rewrite logs_logs. destruct e; eauto.
Qed.

Lemma emitSuccess_passive rethrow args w :
  hasFired w = false → passive_for "success" w = true →
  ∃ r, step rethrow (ICall (OEmitSuccess args)) w
       = Some (logs (Emit "success" args
                       :: deliveries "success" args (registered "success" w))
                 (set_hasFired true w), r).
Proof.
  intros F H. rewrite step_call. simpl. unfold emitSuccess. rewrite F.
  exact (emit_passive rethrow _ "success" args (set_hasFired true w) H).
Qed.

Lemma emitError_passive rethrow args w :
  hasFired w = false → passive_for "error" w = true →
  ∃ r, step rethrow (ICall (OEmitError args)) w
       = Some (logs (Emit "error" args
                       :: deliveries "error" args (registered "error" w))
                 (set_hasFired true w), r).
Proof.
  intros F H. rewrite step_call. simpl. unfold emitError. rewrite F.
  exact (emit_passive rethrow _ "error" args (set_hasFired true w) H).
Qed.

Lemma registered_removeListener name name' w :
  registered name (removeListener name' w)
  = if bool_decide (name' = name) then [] else registered name w.
Proof.
  unfold registered, removeListener. simpl. rewrite lookup_delete.
  by case_decide; [rewrite bool_decide_eq_true_2|rewrite bool_decide_eq_false_2].
Qed.

Lemma registered_addListener name name' l w :
  registered name (addListener name' l w)
  = if bool_decide (name' = name) then registered name w ++ [l]
    else registered name w.
Proof.
  unfold registered, addListener. simpl. rewrite lookup_insert.
  case_decide; [rewrite bool_decide_eq_true_2|rewrite bool_decide_eq_false_2];
    by subst.
Qed.

Lemma cancel_passive rethrow w :
  cancelled w = false → passive_for "cancel" w = true →
  ∃ r, step rethrow (ICall OCancel) w
       = Some (logs (Emit "cancel" []
                       :: deliveries "cancel" [] (registered "cancel" w))
                 (removeListener "error"
                    (removeListener "success" (set_cancelled true w))), r).
Proof.
  intros F H. rewrite step_call. simpl. unfold cancel, emitCancel. rewrite F.
  set (w1 := removeListener _ _).
  assert (registered "cancel" w1 = registered "cancel" w) as Hr.
  { unfold w1. by rewrite !registered_removeListener. }
  rewrite <- Hr. apply emit_passive. unfold passive_for. by rewrite Hr.
Qed.

(** ** Timers that fire *)

Lemma clearTimeout_gone h w : h ∉ (pending (clearTimeout h w)).*1.
Proof.
  unfold clearTimeout. simpl. intros ([h' d] & Hh & Hin)%list_elem_of_fmap.
  apply list_elem_of_filter in Hin as [Hne _]. simpl in *. congruence.
Qed.

Lemma armed_twice_fires rethrow hs :
  trace <$> run rethrow (IFire <$> hs) armed_twice
  = Some (if bool_decide (2%positive ∈ hs)
          then [Emit "error" [VError "timeout"]; Call 1 "error" [VError "timeout"]]
          else []).
Proof.
  induction hs as [|h hs IH]; [done|].
  rewrite fmap_cons. destruct (decide (h = 2%positive)) as [->|Hne].
  - rewrite bool_decide_eq_true_2 by apply list_elem_of_here.
    change (run rethrow (IFire 2%positive :: (IFire <$> hs)) armed_twice)
      with (match fire rethrow 2 armed_twice with
            | Some (w', _) => run rethrow (IFire <$> hs) w'
            | None => None
            end).
    destruct (fire rethrow 2 armed_twice) as [[w3 r]|] eqn:E;
      [|by destruct rethrow; vm_compute in E].
    assert (pending w3 = [] ∧ trace w3
            = [Emit "error" [VError "timeout"]; Call 1 "error" [VError "timeout"]])
      as [Hp Ht].
    { destruct rethrow; vm_compute in E; by simplify_eq. }
    by rewrite run_fires_idle, <- Ht.
  - change (run rethrow (IFire h :: (IFire <$> hs)) armed_twice)
      with (match fire rethrow h armed_twice with
            | Some (w', _) => run rethrow (IFire <$> hs) w'
            | None => None
            end).
    rewrite fire_not_pending.
    + rewrite IH.
      rewrite (bool_decide_ext (2%positive ∈ h :: hs) (2%positive ∈ hs)); [done|].
      rewrite elem_of_cons. split; [by intros [?|?]|by right].
    + change ((pending armed_twice).*1) with [2%positive].
      by intros ->%list_elem_of_singleton.
Qed.

Lemma run_fires_late rethrow hs w :
  hasFired w = true ∨ cancelled w = true →
  ∃ w', run rethrow (IFire <$> hs) w = Some w'
    ∧ trace w' = trace w ∧ hasFired w' = hasFired w
    ∧ cancelled w' = cancelled w ∧ listeners w' = listeners w.
Proof.
  revert w. induction hs as [|h hs IH]; intros w FC; [by exists w|].
  rewrite fmap_cons. simpl.
  destruct (decide (h ∈ (pending w).*1)) as [Hh|Hh].
  - rewrite fire_late by done.
    destruct (IH (set_timer TNull (clearTimeout h w)) FC) as (w' & -> & ?).
    by exists w'.
  - rewrite fire_not_pending by done. by apply IH.
Qed.

(** ** Histories without listeners that call back *)

Lemma all_passive_same w w' :
  listeners w' = listeners w → all_passive w → all_passive w'.
Proof. unfold all_passive, passive_for, registered. by intros ->. Qed.

Lemma all_passive_add name l w :
  passive l = true → all_passive w → all_passive (addListener name l w).
Proof.
  intros Hl Hw name'. unfold passive_for. rewrite registered_addListener.
  case_bool_decide; [|apply Hw]. pose proof (Hw name') as H'.
  unfold passive_for in H'. rewrite forallb_app, H'. simpl. by rewrite Hl.
Qed.

Lemma all_passive_remove name w :
  all_passive w → all_passive (removeListener name w).
Proof.
  intros Hw name'. unfold passive_for. rewrite registered_removeListener.
  case_bool_decide; [done|apply Hw].
Qed.

Lemma step_plain rethrow i w :
  all_passive w → plain i = true →
  ∃ w' r, step rethrow i w = Some (w', r)
    ∧ all_passive w'
    ∧ timeoutDuration w' = delay_after (timeoutDuration w) i.
Proof.
  intros Hw Hi. destruct i as [[l|l|l|args|args| |v]|h].
  - eexists _, _. split; [done|]. split; [|done]. by apply all_passive_add.
  - eexists _, _. split; [done|]. split; [|done]. by apply all_passive_add.
  - eexists _, _. split; [done|]. split; [|done]. by apply all_passive_add.
  - destruct (hasFired w) eqn:F.
    + rewrite emitSuccess_fired by done. by eexists _, _.
    + destruct (emitSuccess_passive rethrow args w F (Hw _)) as [r ->].
      eexists _, _. split; [done|]. split; [|done]. by eapply all_passive_same.
  - destruct (hasFired w) eqn:F.
    + rewrite emitError_fired by done. by eexists _, _.
    + destruct (emitError_passive rethrow args w F (Hw _)) as [r ->].
      eexists _, _. split; [done|]. split; [|done]. by eapply all_passive_same.
  - destruct (cancelled w) eqn:F.
    + exists w, RUndefined. rewrite step_call. simpl. unfold cancel.
      by rewrite F.
    + destruct (cancel_passive rethrow w F (Hw _)) as [r ->].
      eexists _, _. split; [done|]. split; [|done].
      eapply all_passive_same;
        [|apply all_passive_remove, all_passive_remove,
            (all_passive_same w (set_cancelled true w)); done].
      done.
  - destruct v; [by exists w, (RValue (timeoutDuration w))|..];
      (rewrite timeout_arms by done; eexists _, _; split; [done|];
       split; [eapply all_passive_same; [apply arm_listeners|done]
              |by rewrite arm_timeoutDuration]).
  - simpl. destruct (decide (h ∈ (pending w).*1)) as [Hh|Hh].
    + destruct (hasFired w) eqn:F; [rewrite fire_late by auto; by eexists _, _|].
      destruct (cancelled w) eqn:C; [rewrite fire_late by auto; by eexists _, _|].
      rewrite fire_live by done.
      destruct (emitError_passive rethrow [VError "timeout"]
                  (set_timer TNull (clearTimeout h w)) F (Hw _)) as [r ->].
      eexists _, _. split; [done|]. split; [|done]. by eapply all_passive_same.
    + rewrite fire_not_pending by done. by eexists _, _.
Qed.

Lemma run_plain rethrow ins w :
  all_passive w → forallb plain ins = true →
  ∃ w', run rethrow ins w = Some w'
    ∧ timeoutDuration w' = foldl delay_after (timeoutDuration w) ins.
Proof.
  revert w. induction ins as [|i ins IH]; simpl; intros w Hw Hins.
  - by exists w.
  - apply andb_prop in Hins as [Hi Hins].
    destruct (step_plain rethrow i w Hw Hi) as (w1 & r & -> & Hw1 & <-).
    by apply IH.
Qed.

(** ** Cancelling *)

Lemma cancel_cancelled rethrow w :
  cancelled w = true → step rethrow (ICall OCancel) w = Some (w, RUndefined).
Proof. intros F. rewrite step_call. simpl. unfold cancel. by rewrite F. Qed.

Lemma cancel_uncancelled rethrow w :
  cancelled w = false →
  ∃ w' r rest,
    step rethrow (ICall OCancel) w = Some (w', r)
    ∧ cancelled w' = true
    ∧ trace w' = trace w ++ Emit "cancel" [] :: rest
    ∧ emits "cancel" rest = 0
    ∧ named "cancel" rest = deliveries "cancel" [] (registered "cancel" w).
Proof.
  intros F. destruct (step_total rethrow (ICall OCancel) w) as [[w' r] E].
  exists w', r. rewrite E. rewrite step_call in E. simpl in E.
  unfold cancel, emitCancel in E. rewrite F in E.
  apply emit_cancels in E as (F' & rest & Ht & Hz & Hn); [|done].
  exists rest. do 4 (split; [done|]).
  by rewrite Hn, !registered_removeListener.
Qed.

(** ** Registration and delivery *)

Lemma add_then_emitSuccess rethrow w l1 l2 args :
  hasFired w = false →
  ∃ w' rest,
    run rethrow [ICall (OAddCallback l1); ICall (OAddCallback l2);
                 ICall (OEmitSuccess args)] w = Some w'
    ∧ trace w' = trace w ++ Emit "success" args :: rest
    ∧ named "success" rest
      = deliveries "success" args (registered "success" w ++ [l1; l2]).
Proof.
  intros F.
  set (w2 := addListener "success" l2 (addListener "success" l1 w)).
  destruct (emitSuccess_unfired rethrow args w2 F)
    as (w' & r & rest & E & _ & Ht & _ & Hn).
  exists w', rest.
  rewrite (run_cons _ _ _ _ (addListener "success" l1 w) RThis) by done.
  rewrite (run_cons _ _ _ _ w2 RThis) by done.
  rewrite (run_cons _ _ _ _ _ _ E). split; [done|]. split; [done|].
  rewrite Hn. unfold w2. rewrite !registered_addListener. simpl.
  by rewrite <- app_assoc.
Qed.

(** ** The claims *)

(** C1.  Over every history of a promise (method calls with arbitrary
    listeners, timers firing), [success] and [error] together are emitted at
    most once, and exactly once if [hasFired] is up.  A call of
    [emitSuccess] or [emitError] with [hasFired] up changes nothing and
    returns [undefined]; with [hasFired] down it raises the flag and emits
    its event, and nothing that follows inside the call emits [success] or
    [error] again. *)
Theorem promise_fires_at_most_once rethrow :
  (∀ ins, ∃ w, run rethrow ins init = Some w
     ∧ terminal_emits (trace w) ≤ 1
     ∧ terminal_emits (trace w) = if hasFired w then 1 else 0)
  ∧ (∀ w args,
       if hasFired w
       then step rethrow (ICall (OEmitSuccess args)) w = Some (w, RUndefined)
            ∧ step rethrow (ICall (OEmitError args)) w = Some (w, RUndefined)
       else (∃ w' r rest,
               step rethrow (ICall (OEmitSuccess args)) w = Some (w', r)
               ∧ hasFired w' = true
               ∧ trace w' = trace w ++ Emit "success" args :: rest
               ∧ terminal_emits rest = 0)
            ∧ (∃ w' r rest,
               step rethrow (ICall (OEmitError args)) w = Some (w', r)
               ∧ hasFired w' = true
               ∧ trace w' = trace w ++ Emit "error" args :: rest
               ∧ terminal_emits rest = 0)).
Proof.
  split.
  - intros ins. destruct (run_total rethrow ins init) as [w E]. exists w.
    split; [done|]. apply run_steps, steps_terminal in E.
    unfold unfired in E. simpl in E. change (terminal_emits []) with 0 in E.
    destruct (hasFired w); split; lia.
  - intros w args. destruct (hasFired w) eqn:F.
    + split; [by apply emitSuccess_fired | by apply emitError_fired].
    + split.
      * destruct (emitSuccess_unfired rethrow args w F) as (w' & r & rest & ? & ? & ? & ? & _).
        by exists w', r, rest.
      * destruct (emitError_unfired rethrow args w F) as (w' & r & rest & ? & ? & ? & ? & _).
        by exists w', r, rest.
Qed.

(** C2, evaluated: after [emitSuccess] has fired, [cancel()] still emits
    [cancel] and runs the cancel listeners, and after [cancel()] a call of
    [emitSuccess] still emits [success]; the three methods do not share one
    guard. *)
Theorem cancel_emits_after_success rethrow :
  trace <$> run rethrow
    [ICall (OAddCancelback (Listener 2 []));
     ICall (OEmitSuccess [VNum 1]);
     ICall OCancel] init
  = Some [Emit "success" [VNum 1]; Emit "cancel" []; Call 2 "cancel" []]
  ∧ trace <$> run rethrow
      [ICall OCancel; ICall (OEmitSuccess [VNum 1])] init
    = Some [Emit "cancel" []; Emit "success" [VNum 1]].
Proof. by destruct rethrow; vm_compute. Qed.

(** C3.  On a promise reached by any history, [timeout(delay)] records the
    delay, leaves exactly one timer pending at the host, the new one, and
    returns the promise.  A pending timer that fires clears the handle and,
    with both flags down, calls [emitError] with the one value
    [Error("timeout")]; otherwise it does nothing else.  After
    [timeout(100)] and [timeout(50)] only the second timer is pending, and
    whichever timers the host tries to fire, the error listener is called
    once, if that timer is among them, and never twice. *)
Theorem timeout_rearms_and_fires_once rethrow :
  (∀ ins w d,
     run rethrow ins init = Some w → d ≠ VUndefined →
     ∃ w', step rethrow (ICall (OTimeout d)) w = Some (w', RThis)
       ∧ timeoutDuration w' = d
       ∧ timer w' = THandle (next_handle w)
       ∧ pending w' = [(next_handle w, d)]
       ∧ hasFired w' = hasFired w ∧ cancelled w' = cancelled w
       ∧ listeners w' = listeners w ∧ trace w' = trace w)
  ∧ (∀ w h,
       h ∈ (pending w).*1 →
       if negb (hasFired w) && negb (cancelled w)
       then fire rethrow h w
            = step rethrow (ICall (OEmitError [VError "timeout"]))
                (set_timer TNull (clearTimeout h w))
            ∧ ∃ w' r rest,
                fire rethrow h w = Some (w', r)
                ∧ hasFired w' = true
                ∧ trace w' = trace w ++ Emit "error" [VError "timeout"] :: rest
                ∧ terminal_emits rest = 0
                ∧ named "error" rest
                  = deliveries "error" [VError "timeout"] (registered "error" w)
       else fire rethrow h w
            = Some (set_timer TNull (clearTimeout h w), RUndefined))
  ∧ run rethrow [ICall (OAddErrback (Listener 1 []));
                 ICall (OTimeout (VNum 100));
                 ICall (OTimeout (VNum 50))] init = Some armed_twice
  ∧ pending armed_twice = [(2%positive, VNum 50)]
  ∧ (∀ hs,
       trace <$> run rethrow (IFire <$> hs) armed_twice
       = Some (if bool_decide (2%positive ∈ hs)
               then [Emit "error" [VError "timeout"];
                     Call 1 "error" [VError "timeout"]]
               else [])).
Proof.
  split; [|split; [|split; [|split]]].
  - intros ins w d Hrun Hd. exists (arm d w).
    rewrite timeout_arms by done. split; [done|].
    rewrite (arm_pending_ok d w) by (by eapply run_timer_ok).
    by autorewrite with world.
  - intros w h Hh.
    destruct (hasFired w) eqn:F; simpl; [by apply fire_late; auto|].
    destruct (cancelled w) eqn:C; simpl; [by apply fire_late; auto|].
    rewrite fire_live by done. split; [done|].
    destruct (emitError_unfired rethrow [VError "timeout"]
                (set_timer TNull (clearTimeout h w)) F)
      as (w' & r & rest & ? & ? & ? & ? & ?).
    by exists w', r, rest.
  - by destruct rethrow; vm_compute.
  - done.
  - apply armed_twice_fires.
Qed.

Lemma timeout_rearms_and_fires_once_witness :
  (∃ w, run false [ICall (OTimeout (VNum 100))] init = Some w
     ∧ ∃ w', step false (ICall (OTimeout (VNum 50))) w = Some (w', RThis)
         ∧ timeoutDuration w' = VNum 50
         ∧ timer w' = THandle (next_handle w)
         ∧ pending w' = [(next_handle w, VNum 50)]
         ∧ hasFired w' = hasFired w ∧ cancelled w' = cancelled w
         ∧ listeners w' = listeners w ∧ trace w' = trace w)
  ∧ fire false 2 armed_twice
    = step false (ICall (OEmitError [VError "timeout"]))
        (set_timer TNull (clearTimeout 2 armed_twice))
  ∧ ∃ w' r rest,
      fire false 2 armed_twice = Some (w', r)
      ∧ hasFired w' = true
      ∧ trace w' = trace armed_twice ++ Emit "error" [VError "timeout"] :: rest
      ∧ terminal_emits rest = 0
      ∧ named "error" rest
        = deliveries "error" [VError "timeout"] (registered "error" armed_twice).
Proof.
  destruct (timeout_rearms_and_fires_once false) as (H1 & H2 & _).
  split.
  - exists (arm (VNum 100) init). split; [reflexivity|].
    apply (H1 [ICall (OTimeout (VNum 100))]); [reflexivity|discriminate].
  - apply (H2 armed_twice 2%positive). apply list_elem_of_here.
Defined.

(** C4.  [cancel()] on a promise that is not cancelled raises [cancelled],
    drops the success and the error listeners, and then emits [cancel] once,
    to the cancel listeners in order; [hasFired] is as before in the world
    the listeners are run in, and at the end if they call nothing back.  On
    a cancelled promise [cancel()] changes nothing. *)
Theorem cancel_detaches_then_emits_once rethrow :
  ∀ w,
    if cancelled w
    then step rethrow (ICall OCancel) w = Some (w, RUndefined)
    else step rethrow (ICall OCancel) w
         = emit rethrow (exec rethrow 2) "cancel" []
             (removeListener "error"
                (removeListener "success" (set_cancelled true w)))
       ∧ hasFired (removeListener "error"
                     (removeListener "success" (set_cancelled true w)))
         = hasFired w
       ∧ (∃ w' r rest,
            step rethrow (ICall OCancel) w = Some (w', r)
            ∧ cancelled w' = true
            ∧ trace w' = trace w ++ Emit "cancel" [] :: rest
            ∧ emits "cancel" rest = 0
            ∧ named "cancel" rest
              = deliveries "cancel" [] (registered "cancel" w))
       ∧ (passive_for "cancel" w = true →
          ∃ w' r,
            step rethrow (ICall OCancel) w = Some (w', r)
            ∧ cancelled w' = true
            ∧ hasFired w' = hasFired w
            ∧ registered "success" w' = []
            ∧ registered "error" w' = []
            ∧ registered "cancel" w' = registered "cancel" w
            ∧ trace w'
              = trace w ++ Emit "cancel" []
                  :: deliveries "cancel" [] (registered "cancel" w)).
Proof.
  intros w. destruct (cancelled w) eqn:F; [by apply cancel_cancelled|].
  split; [|split; [done|split]].
  - rewrite step_call. simpl. unfold cancel, emitCancel. by rewrite F.
  - by apply cancel_uncancelled.
  - intros H. destruct (cancel_passive rethrow w F H) as [r ->].
    eexists _, r. split; [done|].
    repeat split; unfold registered; simpl;
      rewrite ?lookup_delete_eq, ?lookup_delete_ne, ?lookup_delete_eq by done;
      done.
Qed.

Lemma cancel_detaches_then_emits_once_witness :
  ∃ w' r,
    step false (ICall OCancel)
      (addListener "cancel" (Listener 2 [])
         (addListener "success" (Listener 1 []) init)) = Some (w', r)
    ∧ cancelled w' = true
    ∧ hasFired w' = false
    ∧ registered "success" w' = []
    ∧ registered "error" w' = []
    ∧ registered "cancel" w' = [Listener 2 []]
    ∧ trace w' = [Emit "cancel" []; Call 2 "cancel" []].
Proof.
  destruct (cancel_detaches_then_emits_once false
              (addListener "cancel" (Listener 2 [])
                 (addListener "success" (Listener 1 []) init)))
    as (_ & _ & _ & H).
  apply H. reflexivity.
Defined.

(** C5, evaluated: [emitSuccess] tests only [hasFired], so after
    [cancel()] the promise still emits; a success listener registered after
    [cancel()] is not among those that [cancel()] removed, and
    [emitSuccess("late")] is delivered to it.  The flags before the call are
    [cancelled] up and [hasFired] down. *)
Lemma success_after_cancel_reaches_late_listener :
  (λ w, (cancelled w, hasFired w)) <$>
    run false [ICall OCancel; ICall (OAddCallback (Listener 3 []))] init
  = Some (true, false)
  ∧ (λ x, (trace x.1, hasFired x.1, x.2)) <$>
      (run false [ICall OCancel; ICall (OAddCallback (Listener 3 []))] init
       ≫= step false (ICall (OEmitSuccess [VStr "late"])))
    = Some ([Emit "cancel" [];
             Emit "success" [VStr "late"];
             Call 3 "success" [VStr "late"]], true, RUndefined).
Proof. by vm_compute. Qed.


(** C6.  [addCallback], [addErrback] and [addCancelback] return the promise
    they were called on, which differs only by the listener appended to the
    list of its event.  After two success listeners are added,
    [emitSuccess(args)] calls the listeners registered before and then the
    two, in that order, each with [args], whatever the listeners do; on a
    new promise with listeners 1 and 2 and the argument 42 the trace is the
    event, listener 1 with 42, listener 2 with 42. *)
Theorem add_methods_chain_and_accumulate rethrow :
  (∀ w l,
     step rethrow (ICall (OAddCallback l)) w
     = Some (addListener "success" l w, RThis)
     ∧ step rethrow (ICall (OAddErrback l)) w
       = Some (addListener "error" l w, RThis)
     ∧ step rethrow (ICall (OAddCancelback l)) w
       = Some (addListener "cancel" l w, RThis))
  ∧ (∀ name name' l w,
       registered name' (addListener name l w)
       = (if bool_decide (name = name') then registered name' w ++ [l]
          else registered name' w)
       ∧ hasFired (addListener name l w) = hasFired w
       ∧ cancelled (addListener name l w) = cancelled w
       ∧ timeoutDuration (addListener name l w) = timeoutDuration w
       ∧ timer (addListener name l w) = timer w
       ∧ pending (addListener name l w) = pending w
       ∧ trace (addListener name l w) = trace w)
  ∧ (∀ w l1 l2 args,
       hasFired w = false →
       ∃ w' rest,
         run rethrow [ICall (OAddCallback l1); ICall (OAddCallback l2);
                      ICall (OEmitSuccess args)] w = Some w'
         ∧ trace w' = trace w ++ Emit "success" args :: rest
         ∧ named "success" rest
           = deliveries "success" args (registered "success" w ++ [l1; l2]))
  ∧ trace <$> run rethrow [ICall (OAddCallback (Listener 1 []));
                           ICall (OAddCallback (Listener 2 []));
                           ICall (OEmitSuccess [VNum 42])] init
    = Some [Emit "success" [VNum 42];
            Call 1 "success" [VNum 42];
            Call 2 "success" [VNum 42]].
Proof.
  split; [done|]. split; [|split].
  - intros name name' l w. by rewrite registered_addListener.
  - intros w l1 l2 args F. by apply add_then_emitSuccess.
  - by destruct rethrow; vm_compute.
Qed.

Lemma add_methods_chain_and_accumulate_witness :
  ∃ w' rest,
    run false [ICall (OAddCallback (Listener 1 [SThrow (VStr "boom")]));
               ICall (OAddCallback (Listener 2 [SCall OCancel]));
               ICall (OEmitSuccess [VNum 42])]
      (addListener "success" (Listener 0 []) init) = Some w'
    ∧ trace w' = [] ++ Emit "success" [VNum 42] :: rest
    ∧ named "success" rest
      = [Call 0 "success" [VNum 42];
         Call 1 "success" [VNum 42];
         Call 2 "success" [VNum 42]].
Proof.
  destruct (add_methods_chain_and_accumulate false) as (_ & _ & H & _).
  apply (H (addListener "success" (Listener 0 []) init)
           (Listener 1 [SThrow (VStr "boom")])
           (Listener 2 [SCall OCancel]) [VNum 42]).
  reflexivity.
Defined.

(** C7.  [timeout()] without argument returns the recorded
    [timeoutDuration] and leaves the promise and the host exactly as they
    were.  What is recorded is [undefined] on a new promise, the delay just
    after [timeout(delay)], and over a history (with listeners that call
    nothing back) the last delay that was passed. *)
Theorem timeout_without_argument_reads rethrow :
  (∀ w,
     step rethrow (ICall (OTimeout VUndefined)) w
     = Some (w, RValue (timeoutDuration w)))
  ∧ (∀ reenter w,
       call rethrow reenter (OTimeout VUndefined) w
       = Some (w, RValue (timeoutDuration w)))
  ∧ step rethrow (ICall (OTimeout VUndefined)) init
    = Some (init, RValue VUndefined)
  ∧ (∀ w d,
       d ≠ VUndefined →
       ∃ w', step rethrow (ICall (OTimeout d)) w = Some (w', RThis)
         ∧ step rethrow (ICall (OTimeout VUndefined)) w' = Some (w', RValue d))
  ∧ (∀ ins,
       forallb plain ins = true →
       ∃ w, run rethrow ins init = Some w
         ∧ step rethrow (ICall (OTimeout VUndefined)) w
           = Some (w, RValue (last_delay ins)))
  ∧ snd <$> (run rethrow [ICall (OTimeout (VNum 250))] init
             ≫= step rethrow (ICall (OTimeout VUndefined)))
    = Some (RValue (VNum 250)).
Proof.
  split; [done|]. split; [done|]. split; [done|]. split; [|split].
  - intros w d Hd. exists (arm d w). rewrite timeout_arms by done.
    split; [done|]. by rewrite timeout_reads, arm_timeoutDuration.
  - intros ins Hins.
    destruct (run_plain rethrow ins init) as (w & Hrun & Hd); [done|done|].
    exists w. split; [done|]. by rewrite timeout_reads, Hd.
  - done.
Qed.

Lemma timeout_without_argument_reads_witness :
  (∃ w', step false (ICall (OTimeout (VNum 250))) init = Some (w', RThis)
     ∧ step false (ICall (OTimeout VUndefined)) w' = Some (w', RValue (VNum 250)))
  ∧ (∃ w, run false [ICall (OAddErrback (Listener 1 []));
                     ICall (OTimeout (VNum 100));
                     ICall (OTimeout (VNum 250));
                     ICall (OTimeout VUndefined);
                     ICall (OEmitSuccess [])] init = Some w
       ∧ step false (ICall (OTimeout VUndefined)) w
         = Some (w, RValue (VNum 250))).
Proof.
  destruct (timeout_without_argument_reads false) as (_ & _ & _ & H1 & H2 & _).
  split.
  - apply (H1 init (VNum 250)). discriminate.
  - apply (H2 [ICall (OAddErrback (Listener 1 []));
               ICall (OTimeout (VNum 100));
               ICall (OTimeout (VNum 250));
               ICall (OTimeout VUndefined);
               ICall (OEmitSuccess [])]).
    reflexivity.
Defined.

(** C8.  In every emission (by [emitSuccess], [emitError], [cancel]) each
    listener registered for the event is called, in order, whichever of
    them throw and whatever else they do.  When the listeners only throw or
    return, the promise is left exactly as the method set it: the flag up,
    for [cancel] the success and error listeners dropped, the trace extended
    by the event and the calls, everything else as before.  With listeners
    1, 2, 3 of which 2 throws, all three are called and [hasFired] is up;
    only the call's result depends on whether [emit] passes the exception
    on. *)
Theorem throwing_listener_is_isolated rethrow :
  (∀ w args,
     hasFired w = false →
     (∃ w' r rest,
        step rethrow (ICall (OEmitSuccess args)) w = Some (w', r)
        ∧ hasFired w' = true
        ∧ trace w' = trace w ++ Emit "success" args :: rest
        ∧ named "success" rest
          = deliveries "success" args (registered "success" w))
     ∧ (∃ w' r rest,
        step rethrow (ICall (OEmitError args)) w = Some (w', r)
        ∧ hasFired w' = true
        ∧ trace w' = trace w ++ Emit "error" args :: rest
        ∧ named "error" rest
          = deliveries "error" args (registered "error" w)))
  ∧ (∀ w,
       cancelled w = false →
       ∃ w' r rest,
         step rethrow (ICall OCancel) w = Some (w', r)
         ∧ cancelled w' = true
         ∧ trace w' = trace w ++ Emit "cancel" [] :: rest
         ∧ named "cancel" rest
           = deliveries "cancel" [] (registered "cancel" w))
  ∧ (∀ w args,
       hasFired w = false → passive_for "success" w = true →
       ∃ r, step rethrow (ICall (OEmitSuccess args)) w
            = Some (logs (Emit "success" args
                            :: deliveries "success" args (registered "success" w))
                      (set_hasFired true w), r))
  ∧ (∀ w args,
       hasFired w = false → passive_for "error" w = true →
       ∃ r, step rethrow (ICall (OEmitError args)) w
            = Some (logs (Emit "error" args
                            :: deliveries "error" args (registered "error" w))
                      (set_hasFired true w), r))
  ∧ (∀ w,
       cancelled w = false → passive_for "cancel" w = true →
       ∃ r, step rethrow (ICall OCancel) w
            = Some (logs (Emit "cancel" []
                            :: deliveries "cancel" [] (registered "cancel" w))
                      (removeListener "error"
                         (removeListener "success" (set_cancelled true w))), r))
  ∧ (λ x, (trace x.1, hasFired x.1, cancelled x.1, x.2)) <$>
      (run rethrow [ICall (OAddCallback (Listener 1 []));
                    ICall (OAddCallback (Listener 2 [SThrow (VStr "boom")]));
                    ICall (OAddCallback (Listener 3 []))] init
       ≫= step rethrow (ICall (OEmitSuccess [VNum 7])))
    = Some ([Emit "success" [VNum 7];
             Call 1 "success" [VNum 7];
             Call 2 "success" [VNum 7];
             Call 3 "success" [VNum 7]], true, false,
            if rethrow then RThrow (VStr "boom") else RUndefined).
Proof.
  split; [|split; [|split; [|split; [|split]]]].
  - intros w args F. split.
    + destruct (emitSuccess_unfired rethrow args w F)
        as (w' & r & rest & ? & ? & ? & _ & ?).
      by exists w', r, rest.
    + destruct (emitError_unfired rethrow args w F)
        as (w' & r & rest & ? & ? & ? & _ & ?).
      by exists w', r, rest.
  - intros w C. destruct (cancel_uncancelled rethrow w C)
      as (w' & r & rest & ? & ? & ? & _ & ?).
    by exists w', r, rest.
  - intros w args. apply emitSuccess_passive.
  - intros w args. apply emitError_passive.
  - intros w. apply cancel_passive.
  - by destruct rethrow; vm_compute.
Qed.

Lemma throwing_listener_is_isolated_witness :
  ((∃ w' r rest,
      step false (ICall (OEmitSuccess [VNum 7]))
        (addListener "success" (Listener 2 [])
           (addListener "success" (Listener 1 [SThrow (VStr "boom")]) init))
      = Some (w', r)
      ∧ hasFired w' = true
      ∧ trace w' = [] ++ Emit "success" [VNum 7] :: rest
      ∧ named "success" rest
        = [Call 1 "success" [VNum 7]; Call 2 "success" [VNum 7]])
   ∧ (∃ w' r rest,
      step false (ICall (OEmitError [VNum 7]))
        (addListener "success" (Listener 2 [])
           (addListener "success" (Listener 1 [SThrow (VStr "boom")]) init))
      = Some (w', r)
      ∧ hasFired w' = true
      ∧ trace w' = [] ++ Emit "error" [VNum 7] :: rest
      ∧ named "error" rest = []))
  ∧ (∃ w' r rest,
       step true (ICall OCancel)
         (addListener "cancel" (Listener 2 [])
            (addListener "cancel" (Listener 1 [SThrow (VStr "boom")]) init))
       = Some (w', r)
       ∧ cancelled w' = true
       ∧ trace w' = [] ++ Emit "cancel" [] :: rest
       ∧ named "cancel" rest = [Call 1 "cancel" []; Call 2 "cancel" []])
  ∧ (∃ r, step true (ICall (OEmitSuccess [VNum 7]))
            (addListener "success" (Listener 2 [])
               (addListener "success" (Listener 1 [SThrow (VStr "boom")]) init))
          = Some (logs [Emit "success" [VNum 7];
                        Call 1 "success" [VNum 7];
                        Call 2 "success" [VNum 7]]
                    (set_hasFired true
                       (addListener "success" (Listener 2 [])
                          (addListener "success"
                             (Listener 1 [SThrow (VStr "boom")]) init))), r))
  ∧ (∃ r, step true (ICall (OEmitError [VNum 7]))
            (addListener "error" (Listener 2 [])
               (addListener "error" (Listener 1 [SThrow (VStr "boom")]) init))
          = Some (logs [Emit "error" [VNum 7];
                        Call 1 "error" [VNum 7];
                        Call 2 "error" [VNum 7]]
                    (set_hasFired true
                       (addListener "error" (Listener 2 [])
                          (addListener "error"
                             (Listener 1 [SThrow (VStr "boom")]) init))), r))
  ∧ (∃ r, step true (ICall OCancel)
            (addListener "cancel" (Listener 2 [])
               (addListener "cancel" (Listener 1 [SThrow (VStr "boom")]) init))
          = Some (logs [Emit "cancel" [];
                        Call 1 "cancel" [];
                        Call 2 "cancel" []]
                    (removeListener "error"
                       (removeListener "success"
                          (set_cancelled true
                             (addListener "cancel" (Listener 2 [])
                                (addListener "cancel"
                                   (Listener 1 [SThrow (VStr "boom")]) init))))),
                  r)).
Proof.
  split; [|split; [|split; [|split]]].
  - destruct (throwing_listener_is_isolated false) as (H & _).
    apply (H (addListener "success" (Listener 2 [])
                (addListener "success" (Listener 1 [SThrow (VStr "boom")]) init))
             [VNum 7]).
    reflexivity.
  - destruct (throwing_listener_is_isolated true) as (_ & H & _).
    apply (H (addListener "cancel" (Listener 2 [])
                (addListener "cancel" (Listener 1 [SThrow (VStr "boom")]) init))).
    reflexivity.
  - destruct (throwing_listener_is_isolated true) as (_ & _ & H & _).
    apply (H (addListener "success" (Listener 2 [])
                (addListener "success" (Listener 1 [SThrow (VStr "boom")]) init))
             [VNum 7]); reflexivity.
  - destruct (throwing_listener_is_isolated true) as (_ & _ & _ & H & _).
    apply (H (addListener "error" (Listener 2 [])
                (addListener "error" (Listener 1 [SThrow (VStr "boom")]) init))
             [VNum 7]); reflexivity.
  - destruct (throwing_listener_is_isolated true) as (_ & _ & _ & _ & H & _).
    apply (H (addListener "cancel" (Listener 2 [])
                (addListener "cancel" (Listener 1 [SThrow (VStr "boom")]) init)));
      reflexivity.
Defined.

(** C9.  [emitSuccess] and [emitError] raise [hasFired] before the first
    listener runs: the listeners are run by [emit] in a world where the flag
    is up.  So a listener that calls [emitSuccess] or [emitError] back
    changes nothing by that call, and whatever the listeners of an emission
    do, no second [success] or [error] is emitted. *)
Theorem reentrant_resolution_is_ignored rethrow :
  (∀ w args,
     hasFired w = false →
     step rethrow (ICall (OEmitSuccess args)) w
     = emit rethrow (exec rethrow 2) "success" args (set_hasFired true w)
     ∧ step rethrow (ICall (OEmitError args)) w
       = emit rethrow (exec rethrow 2) "error" args (set_hasFired true w))
  ∧ (∀ f w args ss,
       hasFired w = true →
       run_body (exec rethrow (S f)) (SCall (OEmitSuccess args) :: ss) w
       = run_body (exec rethrow (S f)) ss w
       ∧ run_body (exec rethrow (S f)) (SCall (OEmitError args) :: ss) w
         = run_body (exec rethrow (S f)) ss w)
  ∧ (∀ w args,
       hasFired w = false →
       (∃ w' r rest,
          step rethrow (ICall (OEmitSuccess args)) w = Some (w', r)
          ∧ trace w' = trace w ++ Emit "success" args :: rest
          ∧ emits "success" rest = 0 ∧ emits "error" rest = 0)
       ∧ (∃ w' r rest,
          step rethrow (ICall (OEmitError args)) w = Some (w', r)
          ∧ trace w' = trace w ++ Emit "error" args :: rest
          ∧ emits "success" rest = 0 ∧ emits "error" rest = 0))
  ∧ trace <$> run rethrow
      [ICall (OAddCallback
                (Listener 1 [SCall (OEmitError [VStr "again"]);
                             SCall (OEmitSuccess [VStr "twice"])]));
       ICall (OAddErrback (Listener 2 []));
       ICall (OEmitSuccess [VStr "ok"])] init
    = Some [Emit "success" [VStr "ok"]; Call 1 "success" [VStr "ok"]].
Proof.
  split; [|split; [|split]].
  - intros w args F.
    rewrite !step_call. simpl. unfold emitSuccess, emitError. by rewrite F.
  - intros f w args ss F.
    simpl. rewrite !exec_S. simpl. unfold emitSuccess, emitError. by rewrite F.
  - intros w args F. split.
    + destruct (emitSuccess_unfired rethrow args w F)
        as (w' & r & rest & ? & ? & ? & Hz & _).
      exists w', r, rest. unfold terminal_emits in Hz. repeat split; try done; lia.
    + destruct (emitError_unfired rethrow args w F)
        as (w' & r & rest & ? & ? & ? & Hz & _).
      exists w', r, rest. unfold terminal_emits in Hz. repeat split; try done; lia.
  - by destruct rethrow; vm_compute.
Qed.

Lemma reentrant_resolution_is_ignored_witness :
  (step false (ICall (OEmitSuccess [VStr "ok"])) init
   = emit false (exec false 2) "success" [VStr "ok"] (set_hasFired true init)
   ∧ step false (ICall (OEmitError [VStr "ok"])) init
     = emit false (exec false 2) "error" [VStr "ok"] (set_hasFired true init))
  ∧ (run_body (exec false 1) [SCall (OEmitSuccess [VStr "twice"])]
       (set_hasFired true init)
     = run_body (exec false 1) [] (set_hasFired true init)
     ∧ run_body (exec false 1) [SCall (OEmitError [VStr "twice"])]
         (set_hasFired true init)
       = run_body (exec false 1) [] (set_hasFired true init))
  ∧ ((∃ w' r rest,
        step false (ICall (OEmitSuccess [VStr "ok"])) init = Some (w', r)
        ∧ trace w' = trace init ++ Emit "success" [VStr "ok"] :: rest
        ∧ emits "success" rest = 0 ∧ emits "error" rest = 0)
     ∧ (∃ w' r rest,
        step false (ICall (OEmitError [VStr "ok"])) init = Some (w', r)
        ∧ trace w' = trace init ++ Emit "error" [VStr "ok"] :: rest
        ∧ emits "success" rest = 0 ∧ emits "error" rest = 0)).
Proof.
  destruct (reentrant_resolution_is_ignored false) as (H1 & H2 & H3 & _).
  split; [|split].
  - apply (H1 init [VStr "ok"]). reflexivity.
  - apply (H2 0 (set_hasFired true init) [VStr "twice"] []). reflexivity.
  - apply (H3 init [VStr "ok"]). reflexivity.
Defined.

(** C10.  With [hasFired] or [cancelled] up, a timer that fires emits
    nothing: the callback only clears the handle, over any number of late
    firings.  [emitSuccess], [emitError] and [cancel] themselves leave the
    pending timer and the handle alone (listeners that call nothing back):
    after [timeout(100)] and [emitSuccess(1)] the timer is still pending,
    and when it fires the error listener is not called. *)
Theorem late_timer_emits_nothing rethrow :
  (∀ w h,
     hasFired w = true ∨ cancelled w = true →
     ∃ w', fire rethrow h w = Some (w', RUndefined)
       ∧ trace w' = trace w
       ∧ hasFired w' = hasFired w ∧ cancelled w' = cancelled w
       ∧ listeners w' = listeners w
       ∧ (h ∈ (pending w).*1 → timer w' = TNull ∧ h ∉ (pending w').*1))
  ∧ (∀ w hs,
       hasFired w = true ∨ cancelled w = true →
       ∃ w', run rethrow (IFire <$> hs) w = Some w' ∧ trace w' = trace w)
  ∧ (∀ w args,
       passive_for "success" w = true →
       ∃ w' r, step rethrow (ICall (OEmitSuccess args)) w = Some (w', r)
         ∧ pending w' = pending w ∧ timer w' = timer w)
  ∧ (∀ w args,
       passive_for "error" w = true →
       ∃ w' r, step rethrow (ICall (OEmitError args)) w = Some (w', r)
         ∧ pending w' = pending w ∧ timer w' = timer w)
  ∧ (∀ w,
       passive_for "cancel" w = true →
       ∃ w' r, step rethrow (ICall OCancel) w = Some (w', r)
         ∧ pending w' = pending w ∧ timer w' = timer w)
  ∧ (pending <$> run rethrow [ICall (OAddErrback (Listener 1 []));
                              ICall (OTimeout (VNum 100));
                              ICall (OEmitSuccess [VNum 1])] init
     = Some [(1%positive, VNum 100)]
     ∧ trace <$> run rethrow [ICall (OAddErrback (Listener 1 []));
                              ICall (OTimeout (VNum 100));
                              ICall (OEmitSuccess [VNum 1]);
                              IFire 1] init
       = Some [Emit "success" [VNum 1]]
     ∧ trace <$> run rethrow [ICall (OAddErrback (Listener 1 []));
                              ICall (OTimeout (VNum 100));
                              ICall OCancel;
                              IFire 1] init
       = Some [Emit "cancel" []]).
Proof.
  split; [|split; [|split; [|split; [|split]]]].
  - intros w h FC. destruct (decide (h ∈ (pending w).*1)) as [Hh|Hh].
    + rewrite fire_late by done. eexists. split; [done|].
      repeat split; try done. apply clearTimeout_gone.
    + rewrite fire_not_pending by done. exists w. by repeat split.
  - intros w hs FC.
    destruct (run_fires_late rethrow hs w FC) as (w' & ? & ? & _).
    by exists w'.
  - intros w args H. destruct (hasFired w) eqn:F.
    + exists w, RUndefined. by rewrite emitSuccess_fired.
    + destruct (emitSuccess_passive rethrow args w F H) as [r ->]. by eexists _, r.
  - intros w args H. destruct (hasFired w) eqn:F.
    + exists w, RUndefined. by rewrite emitError_fired.
    + destruct (emitError_passive rethrow args w F H) as [r ->]. by eexists _, r.
  - intros w H. destruct (cancelled w) eqn:F.
    + exists w, RUndefined. rewrite step_call. simpl. unfold cancel. by rewrite F.
    + destruct (cancel_passive rethrow w F H) as [r ->]. by eexists _, r.
  - by destruct rethrow; vm_compute.
Qed.

Lemma late_timer_emits_nothing_witness :
  (∃ w', fire false 1 (set_hasFired true (arm (VNum 100) init))
         = Some (w', RUndefined)
     ∧ trace w' = trace (set_hasFired true (arm (VNum 100) init))
     ∧ hasFired w' = true ∧ cancelled w' = false
     ∧ listeners w' = listeners (set_hasFired true (arm (VNum 100) init))
     ∧ (1%positive ∈ (pending (set_hasFired true (arm (VNum 100) init))).*1 →
        timer w' = TNull ∧ 1%positive ∉ (pending w').*1))
  ∧ (∃ w', run false (IFire <$> [1%positive; 1%positive])
             (set_cancelled true (arm (VNum 100) init)) = Some w'
       ∧ trace w' = [])
  ∧ (∃ w' r, step false (ICall (OEmitSuccess [VNum 1])) (arm (VNum 100) init)
             = Some (w', r)
       ∧ pending w' = pending (arm (VNum 100) init)
       ∧ timer w' = timer (arm (VNum 100) init))
  ∧ (∃ w' r, step false (ICall (OEmitError [VNum 1])) (arm (VNum 100) init)
             = Some (w', r)
       ∧ pending w' = pending (arm (VNum 100) init)
       ∧ timer w' = timer (arm (VNum 100) init))
  ∧ (∃ w' r, step false (ICall OCancel) (arm (VNum 100) init) = Some (w', r)
       ∧ pending w' = pending (arm (VNum 100) init)
       ∧ timer w' = timer (arm (VNum 100) init)).
Proof.
  destruct (late_timer_emits_nothing false) as (H1 & H2 & H3 & H4 & H5 & _).
  split; [|split; [|split; [|split]]].
  - apply (H1 (set_hasFired true (arm (VNum 100) init)) 1%positive).
    left. reflexivity.
  - apply (H2 (set_cancelled true (arm (VNum 100) init)) [1%positive; 1%positive]).
    right. reflexivity.
  - apply (H3 (arm (VNum 100) init) [VNum 1]). reflexivity.
  - apply (H4 (arm (VNum 100) init) [VNum 1]). reflexivity.
  - apply (H5 (arm (VNum 100) init)). reflexivity.
Defined.

(** ** Further properties: flags, events and deliveries over a history *)

Lemma run_quiet rethrow name ins w w' :
  run rethrow ins w = Some w' → guard name w = true →
  named name (trace w') = named name (trace w).
Proof.
  revert w. induction ins as [|i ins IH]; simpl; intros w H G; [by simplify_eq|].
  destruct (step rethrow i w) as [[w1 r]|] eqn:E; [|done].
  pose proof (steps_guard name _ _ (step_steps _ _ _ _ _ E) G) as G1.
  rewrite (IH _ H G1). clear IH H. destruct i as [o|h]; simpl in E.
  - by eapply exec_quiet.
  - unfold fire, timer_callback in E. case_bool_decide; [|by simplify_eq].
    destruct (_ && _); [|by simplify_eq].
    by apply (exec_quiet _ name) in E.
Qed.

Lemma all_emits_app t1 t2 : all_emits (t1 ++ t2) = all_emits t1 + all_emits t2.
Proof. unfold all_emits. by rewrite filter_app, length_app. Qed.

Lemma prim_all_emits w w' :
  prim w w' →
  all_emits (trace w') + unfired w' + uncancelled w'
  = all_emits (trace w) + unfired w + uncancelled w.
Proof.
  unfold unfired, uncancelled.
  destruct 1 as [| | ? ? F | ? ? F | ? F | |]; autorewrite with world; simpl;
    rewrite ?all_emits_app, ?F; simpl; try done;
    change (all_emits [Emit _ _]) with 1; change (all_emits [Call _ _ _]) with 0;
    repeat case_match; lia.
Qed.

Lemma steps_all_emits w w' :
  rtc prim w w' →
  all_emits (trace w') + unfired w' + uncancelled w'
  = all_emits (trace w) + unfired w + uncancelled w.
Proof. induction 1 as [|? ? ? H%prim_all_emits]; lia. Qed.

Lemma once_trans name w w1 w2 :
  rtc prim w w1 → rtc prim w1 w2 →
  once name w w1 → once name w1 w2 → once name w w2.
Proof.
  intros S1 S2 [E1 | (G & G1 & args & ls & E1 & Hc)]
               [E2 | (G1' & G2 & args' & ls' & E2 & Hc')].
  - left. congruence.
  - right. split.
    { destruct (guard name w) eqn:G; [|done].
      by rewrite (steps_guard _ _ _ S1 G) in G1'. }
    split; [done|]. exists args', ls'. by rewrite E2, E1.
  - right. split; [done|]. split; [by eapply steps_guard|].
    exists args, ls. by rewrite E2.
  - congruence.
Qed.

Lemma once_from name w w0 w' :
  named name (trace w0) = named name (trace w) →
  guard name w0 = guard name w →
  once name w0 w' → once name w w'.
Proof.
  intros Ht Hg [E | (G & G' & args & ls & E & Hc)]; [left|right].
  - congruence.
  - split; [congruence|]. split; [done|]. exists args, ls. by rewrite <- Ht.
Qed.

Lemma named_log_other name e w :
  about name e = false → named name (trace (log e w)) = named name (trace w).
Proof.
  intros H. simpl. rewrite named_app, named_one, H. apply app_nil_r.
Qed.

Section Once.
Context (rethrow : bool) (reenter : op → world → option (world * result)).
Context (name : string).
Hypothesis reenter_steps :
  ∀ o w w' r, reenter o w = Some (w', r) → rtc prim w w'.
Hypothesis reenter_quiet :
  ∀ o w w' r, reenter o w = Some (w', r) → guard name w = true →
    named name (trace w') = named name (trace w).
Hypothesis reenter_once :
  ∀ o w w' r, reenter o w = Some (w', r) → once name w w'.

Lemma run_body_once ss w w' e :
  run_body reenter ss w = Some (w', e) → once name w w'.
Proof.
  revert w. induction ss as [|[o|v] ss IH]; simpl; intros w H.
  - simplify_eq. by left.
  - destruct (reenter o w) as [[w1 r]|] eqn:E; [|done].
    pose proof (reenter_once _ _ _ _ E) as O1.
    pose proof (reenter_steps _ _ _ _ E) as S1.
    destruct r; simplify_eq; try done;
      (eapply once_trans; [exact S1|by eapply run_body_steps|exact O1|by apply IH]).
  - simplify_eq. by left.
Qed.

Lemma emit_each_other name' args ls exn w w' e :
  name' ≠ name →
  emit_each reenter name' args ls exn w = Some (w', e) → once name w w'.
Proof.
  intros Hne. revert exn w. induction ls as [|l ls IH]; simpl; intros exn w H.
  - simplify_eq. by left.
  - destruct (invoke reenter name' args l w) as [[w1 e1]|] eqn:E; [|done].
    eapply once_trans;
      [by eapply invoke_steps|by eapply emit_each_steps| |by eapply IH].
    unfold invoke in E. apply run_body_once in E.
    eapply once_from; [| |exact E]; [|done].
    apply named_log_other. simpl. by rewrite bool_decide_eq_false_2.
Qed.

Lemma emit_other name' args w w' r :
  name' ≠ name →
  emit rethrow reenter name' args w = Some (w', r) → once name w w'.
Proof.
  intros Hne. unfold emit. intros H.
  destruct (emit_each _ _ _ _ _ _) as [[w1 e]|] eqn:E; [|done].
  apply emit_each_other in E; [|done].
  assert (w1 = w') as -> by (destruct e; by simplify_eq).
  eapply once_from; [| |exact E]; [|done].
  apply named_log_other. simpl. by rewrite bool_decide_eq_false_2.
Qed.

Lemma emit_first args w w' r :
  guard name w = true →
  emit rethrow reenter name args w = Some (w', r) →
  guard name w' = true
  ∧ named name (trace w')
    = named name (trace w) ++ Emit name args
        :: deliveries name args (registered name w).
Proof.
  intros G H. split.
  - apply (steps_guard name (log (Emit name args) w)); [|exact G].
    by eapply emit_steps.
  - by eapply emit_delivers.
Qed.
End Once.

Lemma once_after_fire name w w' :
  once name (set_hasFired true w) w' → once name w w'.
Proof.
  intros [E | (G & G' & args & ls & E & Hc)]; [by left|]. right.
  unfold guard in *. case_bool_decide; [|done]. split; [done|].
  split; [done|]. by exists args, ls.
Qed.

Lemma call_once rethrow f name o w w' r :
  (∀ o w w' r, exec rethrow f o w = Some (w', r) → once name w w') →
  call rethrow (exec rethrow f) o w = Some (w', r) → once name w w'.
Proof.
  intros IH. destruct o as [l|l|l|args|args| |v]; simpl; intros H.
  - unfold addCallback in H. simplify_eq. by left.
  - unfold addErrback in H. simplify_eq. by left.
  - unfold addCancelback in H. simplify_eq. by left.
  - unfold emitSuccess in H. destruct (hasFired w) eqn:F; [simplify_eq; by left|].
    destruct (decide (name = "success")) as [->|Hne].
    + apply emit_first in H as [G' E];
        [|apply exec_steps|intros ? ? ? ?; apply exec_quiet|done].
      right. split; [exact F|]. split; [done|]. eexists _, _. split; [exact E|done].
    + apply (emit_other _ _ name) in H; [|apply exec_steps|done|done].
      by apply once_after_fire.
  - unfold emitError in H. destruct (hasFired w) eqn:F; [simplify_eq; by left|].
    destruct (decide (name = "error")) as [->|Hne].
    + apply emit_first in H as [G' E];
        [|apply exec_steps|intros ? ? ? ?; apply exec_quiet|done].
      right. split; [exact F|]. split; [done|]. eexists _, _. split; [exact E|done].
    + apply (emit_other _ _ name) in H; [|apply exec_steps|done|done].
      by apply once_after_fire.
  - unfold cancel, emitCancel in H.
    destruct (cancelled w) eqn:F; [simplify_eq; by left|].
    destruct (decide (name = "cancel")) as [->|Hne].
    + apply emit_first in H as [G' E];
        [|apply exec_steps|intros ? ? ? ?; apply exec_quiet|done].
      right. split; [exact F|]. split; [done|]. eexists _, _. split; [exact E|done].
    + apply (emit_other _ _ name) in H; [|apply exec_steps|done|done].
      eapply once_from; [| |exact H]; [done|].
      unfold guard. by rewrite !bool_decide_eq_false_2.
  - unfold timeout in H. destruct v; simplify_eq; left;
      by autorewrite with world.
Qed.

Lemma exec_once rethrow name fuel o w w' r :
  exec rethrow fuel o w = Some (w', r) → once name w w'.
Proof.
  revert o w w' r. induction fuel as [|f IH]; intros o w w' r H; [done|].
  rewrite exec_S in H. by eapply call_once.
Qed.

Lemma step_once rethrow name i w w' r :
  step rethrow i w = Some (w', r) → once name w w'.
Proof.
  destruct i as [o|h]; simpl; [apply exec_once|].
  unfold fire, timer_callback. case_bool_decide; [|intros; simplify_eq; by left].
  destruct (_ && _); [|intros; simplify_eq; by left].
  intros E. apply (exec_once _ name) in E. by eapply once_from; [| |exact E].
Qed.

Lemma run_once rethrow name ins w w' :
  run rethrow ins w = Some w' → once name w w'.
Proof.
  revert w. induction ins as [|i ins IH]; simpl; intros w H.
  - simplify_eq. by left.
  - destruct (step rethrow i w) as [[w1 r]|] eqn:E; [|done].
    eapply once_trans;
      [by eapply step_steps|by eapply run_steps|by eapply step_once|by apply IH].
Qed.

Lemma emits_named name t : emits name (named name t) = emits name t.
Proof.
  unfold emits, named. induction t as [|e t IH]; [done|].
  rewrite !filter_cons. destruct e as [n a|i n a]; simpl.
  - destruct (bool_decide (n = name)) eqn:E; simpl; [|done].
    rewrite filter_cons. simpl. rewrite E. simpl. by rewrite IH.
  - destruct (bool_decide (n = name)) eqn:E; simpl; [|done].
    rewrite filter_cons. simpl. by rewrite IH.
Qed.

Lemma emits_deliveries name n args ls : emits name (deliveries n args ls) = 0.
Proof. unfold emits. by induction ls. Qed.

Lemma emits_shape name t args ls :
  named name t = Emit name args :: deliveries name args ls → emits name t = 1.
Proof.
  intros H. rewrite <- emits_named, H.
  change (Emit name args :: deliveries name args ls)
    with ([Emit name args] ++ deliveries name args ls).
  rewrite emits_app, emits_emit, emits_deliveries.
  by rewrite bool_decide_eq_true_2.
Qed.

Lemma emits_none name t : named name t = [] → emits name t = 0.
Proof. intros H. by rewrite <- emits_named, H. Qed.

Lemma once_init name w :
  once name init w →
  named name (trace w) = []
  ∨ ∃ args ls, named name (trace w) = Emit name args :: deliveries name args ls
      ∧ (name = "cancel" → args = []).
Proof.
  intros [E | (_ & _ & args & ls & E & Hc)]; [by left|right].
  by exists args, ls.
Qed.

(** ** Further properties *)

(** X1.  [hasFired] and [cancelled] are never reset: over any history from
    any state, with listeners that call back and timers that fire, a flag
    that is up stays up. *)
Theorem flags_never_reset rethrow ins w w' :
  run rethrow ins w = Some w' →
  (hasFired w = true → hasFired w' = true)
  ∧ (cancelled w = true → cancelled w' = true).
Proof.
  intros H%run_steps. split; [by apply steps_hasFired|by apply steps_cancelled].
Qed.

Lemma flags_never_reset_witness :
  (hasFired (set_cancelled true (set_hasFired true init)) = true →
   hasFired (arm (VNum 5) (set_cancelled true (set_hasFired true init))) = true)
  ∧ (cancelled (set_cancelled true (set_hasFired true init)) = true →
     cancelled (arm (VNum 5) (set_cancelled true (set_hasFired true init)))
     = true).
Proof.
  apply (flags_never_reset false
           [ICall OCancel; ICall (OEmitError []); ICall (OTimeout (VNum 5))]
           (set_cancelled true (set_hasFired true init))).
  reflexivity.
Defined.

(** X2.  Over every history the promise has emitted as many events as it
    has flags up: [cancel] once if [cancelled] is up and never otherwise,
    and with [success] and [error] at most two events in all. *)
Theorem events_emitted_match_flags rethrow ins :
  ∃ w, run rethrow ins init = Some w
    ∧ emits "cancel" (trace w) = (if cancelled w then 1 else 0)
    ∧ all_emits (trace w)
      = (if hasFired w then 1 else 0) + (if cancelled w then 1 else 0)
    ∧ all_emits (trace w) ≤ 2.
Proof.
  destruct (run_total rethrow ins init) as [w E]. exists w. split; [done|].
  apply run_steps in E.
  pose proof (steps_cancel_emits _ _ E) as Hc.
  pose proof (steps_all_emits _ _ E) as Ha.
  unfold unfired, uncancelled in *. simpl in *.
  change (emits "cancel" []) with 0 in Hc. change (all_emits []) with 0 in Ha.
  destruct (hasFired w), (cancelled w); repeat split; lia.
Qed.

(** X3.  Over every history each event is delivered at most once, and in
    one piece: the [cancel] events of the trace are none, or (exactly when
    [cancelled] is up) one emission without arguments followed by one call
    of each listener of a list, in order; the [success] and [error] events
    are none, or (exactly when [hasFired] is up) one emission of one of the
    two followed by one call of each listener of a list, in order, with the
    arguments of the emission, and no event of the other. *)
Theorem each_event_is_delivered_once rethrow ins :
  ∃ w, run rethrow ins init = Some w
    ∧ (if cancelled w
       then ∃ ls, named "cancel" (trace w)
                  = Emit "cancel" [] :: deliveries "cancel" [] ls
       else named "cancel" (trace w) = [])
    ∧ (if hasFired w
       then ∃ args ls,
              (named "success" (trace w)
               = Emit "success" args :: deliveries "success" args ls
               ∧ named "error" (trace w) = [])
              ∨ (named "error" (trace w)
                 = Emit "error" args :: deliveries "error" args ls
                 ∧ named "success" (trace w) = [])
       else named "success" (trace w) = [] ∧ named "error" (trace w) = []).
Proof.
  destruct (run_total rethrow ins init) as [w E]. exists w. split; [done|].
  pose proof (once_init _ _ (run_once _ "cancel" _ _ _ E)) as Oc.
  pose proof (once_init _ _ (run_once _ "success" _ _ _ E)) as Os.
  pose proof (once_init _ _ (run_once _ "error" _ _ _ E)) as Oe.
  apply run_steps in E.
  pose proof (steps_cancel_emits _ _ E) as Hc.
  pose proof (steps_terminal _ _ E) as Ht.
  unfold unfired, uncancelled, terminal_emits in *. simpl in *.
  change (emits _ []) with 0 in *. split.
  - destruct Oc as [Oc | (args & ls & Oc & Hargs)].
    + rewrite (emits_none _ _ Oc) in Hc. destruct (cancelled w); [lia|done].
    + rewrite (emits_shape _ _ _ _ Oc) in Hc. rewrite Hargs in Oc by done.
      destruct (cancelled w); [by exists ls|lia].
  - destruct Os as [Os | (args & ls & Os & _)], Oe as [Oe | (args' & ls' & Oe & _)].
    + rewrite (emits_none _ _ Os), (emits_none _ _ Oe) in Ht.
      destruct (hasFired w); [lia|done].
    + rewrite (emits_none _ _ Os), (emits_shape _ _ _ _ Oe) in Ht.
      destruct (hasFired w); [|lia]. exists args', ls'. by right.
    + rewrite (emits_shape _ _ _ _ Os), (emits_none _ _ Oe) in Ht.
      destruct (hasFired w); [|lia]. exists args, ls. by left.
    + rewrite (emits_shape _ _ _ _ Os), (emits_shape _ _ _ _ Oe) in Ht.
      destruct (hasFired w); lia.
Qed.

(** X4.  Once the promise has fired, no success or error listener is ever
    called again, whatever is registered, called or fired afterwards; in
    particular a callback added after the promise has fired is never called.
    Once it is cancelled, no cancel listener is called again. *)
Theorem nothing_is_delivered_after_settling rethrow ins w w' :
  run rethrow ins w = Some w' →
  (hasFired w = true →
   named "success" (trace w') = named "success" (trace w)
   ∧ named "error" (trace w') = named "error" (trace w))
  ∧ (cancelled w = true →
     named "cancel" (trace w') = named "cancel" (trace w)).
Proof.
  intros H. split; [intros F; split|intros C];
    by apply (run_quiet rethrow _ ins).
Qed.

Lemma nothing_is_delivered_after_settling_witness :
  (named "success"
     (trace (set_timer TNull
               (clearTimeout 1
                  (arm (VNum 10)
                     (addListener "success" (Listener 1 [])
                        (set_cancelled true (set_hasFired true init)))))))
   = named "success" (trace (set_cancelled true (set_hasFired true init)))
   ∧ named "error"
       (trace (set_timer TNull
                 (clearTimeout 1
                    (arm (VNum 10)
                       (addListener "success" (Listener 1 [])
                          (set_cancelled true (set_hasFired true init)))))))
     = named "error" (trace (set_cancelled true (set_hasFired true init))))
  ∧ named "cancel"
      (trace (set_timer TNull
                (clearTimeout 1
                   (arm (VNum 10)
                      (addListener "success" (Listener 1 [])
                         (set_cancelled true (set_hasFired true init)))))))
    = named "cancel" (trace (set_cancelled true (set_hasFired true init))).
Proof.
  destruct (nothing_is_delivered_after_settling false
              [ICall (OAddCallback (Listener 1 []));
               ICall (OEmitSuccess [VNum 2]);
               ICall OCancel;
               ICall (OTimeout (VNum 10));
               IFire 1]
              (set_cancelled true (set_hasFired true init))
              (set_timer TNull
                 (clearTimeout 1
                    (arm (VNum 10)
                       (addListener "success" (Listener 1 [])
                          (set_cancelled true (set_hasFired true init)))))))
    as [H1 H2]; [reflexivity|].
  split; [apply H1|apply H2]; reflexivity.
Defined.

(** X5.  On every promise reached by a history the host holds at most one
    timer of the promise: the one whose handle is in [timer], scheduled with
    the recorded [timeoutDuration], and none when [timer] is [null] or was
    never set. *)
Theorem at_most_one_timer_is_pending rethrow ins w :
  run rethrow ins init = Some w →
  pending w = match timer w with
              | THandle h => [(h, timeoutDuration w)]
              | TUnset | TNull => []
              end
  ∧ length (pending w) ≤ 1.
Proof.
  intros H%run_steps. apply (steps_timer_ok init) in H; [|done].
  unfold timer_ok in H. split; [by destruct (timer w)|].
  rewrite H. destruct (timer w); simpl; lia.
Qed.

Lemma at_most_one_timer_is_pending_witness :
  pending (arm (VNum 30) (arm (VNum 20) (arm (VNum 10) init)))
  = [(3%positive, VNum 30)]
  ∧ length (pending (arm (VNum 30) (arm (VNum 20) (arm (VNum 10) init)))) ≤ 1.
Proof.
  apply (at_most_one_timer_is_pending false
           [ICall (OTimeout (VNum 10)); ICall (OTimeout (VNum 20));
            ICall (OTimeout (VNum 30))]
           (arm (VNum 30) (arm (VNum 20) (arm (VNum 10) init)))).
  reflexivity.
Defined.

(** X6.  A method call returns however the listeners call back into the
    promise: every emission raises a flag first, so listeners run at most
    two deep inside a call and the nesting bound [depth] is never felt (any
    larger bound gives the same result).  The bound is reached: a success
    listener that cancels, with a cancel listener that calls [timeout], needs
    all of it. *)
Theorem calls_return_whatever_listeners_do rethrow :
  (∀ fuel o w,
     depth ≤ fuel →
     ∃ x, exec rethrow fuel o w = Some x ∧ exec rethrow depth o w = Some x)
  ∧ (∀ ins w, ∃ w', run rethrow ins w = Some w')
  ∧ exec rethrow 2 (OEmitSuccess [])
      (addListener "cancel" (Listener 2 [SCall (OTimeout (VNum 1))])
         (addListener "success" (Listener 1 [SCall OCancel]) init))
    = None.
Proof.
  split; [|split].
  - intros fuel o w Hf.
    destruct (exec_total rethrow depth o w (slack_depth w)) as [x E].
    exists x. split; [|done]. by eapply exec_mono.
  - intros ins w. apply run_total.
  - by destruct rethrow.
Qed.

Lemma calls_return_whatever_listeners_do_witness :
  ∃ x, exec false 5 (OEmitSuccess [])
         (addListener "cancel" (Listener 2 [SCall (OTimeout (VNum 1))])
            (addListener "success" (Listener 1 [SCall OCancel]) init))
       = Some x
     ∧ exec false depth (OEmitSuccess [])
         (addListener "cancel" (Listener 2 [SCall (OTimeout (VNum 1))])
            (addListener "success" (Listener 1 [SCall OCancel]) init))
       = Some x.
Proof.
  destruct (calls_return_whatever_listeners_do false) as [H _].
  apply (H 5). unfold depth. lia.
Defined.

(** X7.  Of a pending timeout and a resolution the first wins.  On a
    promise with neither flag up: if the timer fires first, the error
    listeners get [Error("timeout")] and a later [emitSuccess] delivers
    nothing; if [emitSuccess] comes first, the success listeners get its
    arguments and no timer that fires afterwards delivers an error. *)
Theorem first_of_timeout_and_resolution_wins rethrow w h args :
  h ∈ (pending w).*1 → hasFired w = false → cancelled w = false →
  (∃ w1, run rethrow [IFire h; ICall (OEmitSuccess args)] w = Some w1
     ∧ named "success" (trace w1) = named "success" (trace w)
     ∧ named "error" (trace w1)
       = named "error" (trace w) ++ Emit "error" [VError "timeout"]
           :: deliveries "error" [VError "timeout"] (registered "error" w))
  ∧ (∀ hs,
       ∃ w2, run rethrow (ICall (OEmitSuccess args) :: (IFire <$> hs)) w = Some w2
         ∧ named "error" (trace w2) = named "error" (trace w)
         ∧ named "success" (trace w2)
           = named "success" (trace w) ++ Emit "success" args
               :: deliveries "success" args (registered "success" w)).
Proof.
  intros Hh F C. split.
  - destruct (emitError_unfired rethrow [VError "timeout"]
                (set_timer TNull (clearTimeout h w)) F)
      as (w' & r & rest & E & F' & Ht & _ & Hn).
    exists w'. rewrite <- fire_live in E by done.
    rewrite (run_cons _ (IFire h) _ _ _ _ E).
    rewrite (run_cons _ _ _ _ _ _ (emitSuccess_fired rethrow args w' F')).
    split; [done|]. split.
    + simpl in E. rewrite fire_live in E by done.
      rewrite step_call in E. simpl in E. unfold emitError in E.
      simpl in E. rewrite F in E.
      by apply (emit_quiet _ _ "success") in E;
        [|apply exec_steps|intros ? ? ? ?; apply exec_quiet|done..].
    + rewrite Ht. simpl.
      change (Emit "error" [VError "timeout"] :: rest)
        with ([Emit "error" [VError "timeout"]] ++ rest).
      by rewrite !named_app, named_one, Hn.
  - intros hs.
    destruct (emitSuccess_unfired rethrow args w F)
      as (w' & r & rest & E & F' & Ht & _ & Hn).
    destruct (run_total rethrow (IFire <$> hs) w') as [w2 E2].
    exists w2. rewrite (run_cons _ _ _ _ _ _ E). split; [done|].
    rewrite (run_quiet _ "error" _ _ _ E2), (run_quiet _ "success" _ _ _ E2)
      by done.
    split.
    + rewrite step_call in E. simpl in E. unfold emitSuccess in E.
      rewrite F in E.
      by apply (emit_quiet _ _ "error") in E;
        [|apply exec_steps|intros ? ? ? ?; apply exec_quiet|done..].
    + rewrite Ht.
      change (Emit "success" args :: rest) with ([Emit "success" args] ++ rest).
      by rewrite !named_app, named_one, Hn.
Qed.

Lemma first_of_timeout_and_resolution_wins_witness :
  (∃ w1, run false [IFire 2; ICall (OEmitSuccess [VNum 1])] armed_twice = Some w1
     ∧ named "success" (trace w1) = named "success" (trace armed_twice)
     ∧ named "error" (trace w1)
       = named "error" (trace armed_twice) ++ Emit "error" [VError "timeout"]
           :: deliveries "error" [VError "timeout"]
                (registered "error" armed_twice))
  ∧ (∀ hs,
       ∃ w2, run false (ICall (OEmitSuccess [VNum 1]) :: (IFire <$> hs))
               armed_twice = Some w2
         ∧ named "error" (trace w2) = named "error" (trace armed_twice)
         ∧ named "success" (trace w2)
           = named "success" (trace armed_twice) ++ Emit "success" [VNum 1]
               :: deliveries "success" [VNum 1]
                    (registered "success" armed_twice)).
Proof.
  apply (first_of_timeout_and_resolution_wins false armed_twice 2 [VNum 1]).
  - apply list_elem_of_here.
  - reflexivity.
  - reflexivity.
Defined.
